(** * pokervitoria: rooms store and realtime gateway

    A shallow embedding of the server's in-memory rooms store
    ([state/roomsStore.js]), of the Socket.io gateway
    ([realtime/socket.js]), of the REST handlers ([routes/rooms.js]) and of
    the client component ([App.jsx]), with the properties of the membership
    protocol proved over it.

    Modelling conventions.
    - A JavaScript string is represented by a Rocq [string]: equal strings
      have equal representations and the empty string is [""].  The three
      built-in operations the code calls on strings, [trim], [toLowerCase]
      and [length], are not defined here: they are the operations of the
      class [JsStrings], and every definition and theorem is stated for
      whatever they are.  Where a proof needs a fact about them, the fact is
      a hypothesis of the theorem.
    - The module-level [rooms] Map is a [gmap string Room.t] threaded
      through every store function.  Each room object is stored under one
      key only, so updating the value under that key is the mutation of the
      object.
    - [crypto.randomUUID()] and [new Date().toISOString()] are inputs of the
      environment: the functions that call them take the drawn values as the
      arguments [uuid] and [now].
    - A Socket.io handler is a function of the handler's [socket] and of the
      registry, returning both together with the list of events it emitted,
      in emission order. *)

From Stdlib Require Import Ascii String NArith.
From stdpp Require Import base strings list gmap.

Local Open Scope string_scope.
Local Open Scope list_scope.

(** ** JavaScript strings *)

(** [String.prototype.trim], [String.prototype.toLowerCase] and the
    [length] property (a number of UTF-16 code units). *)
Class JsStrings : Type :=
  { trim : string → string;
    toLowerCase : string → string;
    jsLength : string → nat }.

Section StringLaws.

Context `{builtins : !JsStrings}.

(** Two facts about the built-ins that some theorems assume, each named
    where it is used.  Trimming what is trimmed changes nothing. *)
Definition trimIdempotent : Prop :=
  ∀ s : string, trim (trim s) = trim s.

(** Mapping the case of letters neither makes nor removes white space at
    the ends of a string: a string can be trimmed before or after
    [toLowerCase]. *)
Definition trimCommutesWithToLowerCase : Prop :=
  ∀ s : string, trim (toLowerCase s) = toLowerCase (trim s).

End StringLaws.


(** ** JavaScript values reaching the handlers

    The payload of a socket event and the body of a request are parsed JSON:
    the handlers only test their fields for truthiness and for
    [typeof x === "string"]. *)

Inductive JsValue : Type :=
| JsUndefined
| JsNull
| JsBool (b : bool)
| JsNumber (n : Z)
| JsStr (s : string)
| JsObject.

(** [!!v] *)
Definition truthy (v : JsValue) : bool :=
  match v with
  | JsUndefined | JsNull => false
  | JsBool b => b
  | JsNumber n => negb (n =? 0)%Z
  | JsStr s => negb (s =? "")
  | JsObject => true
  end.

(** [typeof v === "string"] *)
Definition isString (v : JsValue) : bool :=
  match v with JsStr _ => true | _ => false end.

(** The string held by a value that passed [isString]. *)
Definition str (v : JsValue) : string :=
  match v with JsStr s => s | _ => "" end.

(** ** Data model of the store *)

Module Player.
Record t : Type := mk { id : string; name : string; joinedAt : string }.
End Player.

Module Room.
Record t : Type :=
  mk { id : string; name : string; players : list Player.t; createdAt : string }.

Definition withPlayers (ps : list Player.t) (r : t) : t :=
  mk (id r) (name r) ps (createdAt r).
End Room.

(** [const rooms = new Map()] *)
Abbreviation Rooms := (gmap string Room.t).

Inductive StoreError : Type := ROOM_NOT_FOUND | NAME_TAKEN.

(** The object [addPlayer] returns: [{ error }] or [{ room, player }]. *)
Inductive AddResult : Type :=
| AddError (error : StoreError)
| AddOk (room : Room.t) (player : Player.t).

(** The object [listPlayers] returns: [{ error }] or [{ room, players }]. *)
Inductive ListResult : Type :=
| ListError (error : StoreError)
| ListOk (room : Room.t) (players : list Player.t).

(** ** roomsStore.js *)

Section StoreCode.

Context `{builtins : !JsStrings}.

Definition createRoom (name : string) (uuid now : string) (rooms : Rooms)
  : Room.t * Rooms :=
  let id := uuid in
  let room := Room.mk id (trim name) [] now in
  (room, <[id := room]> rooms).

Definition getRoom (id : string) (rooms : Rooms) : option Room.t :=
  rooms !! id.

Definition addPlayer (roomId playerName : string) (uuid now : string)
    (rooms : Rooms) : AddResult * Rooms :=
  match getRoom roomId rooms with
  | None => (AddError ROOM_NOT_FOUND, rooms)
  | Some room =>
      let cleanName := trim playerName in
      let nameTaken :=
        existsb
          (fun p => toLowerCase (Player.name p) =? toLowerCase cleanName)
          (Room.players room) in
      if nameTaken then (AddError NAME_TAKEN, rooms)
      else
        let player := Player.mk uuid cleanName now in
        let room' := Room.withPlayers (Room.players room ++ [player]) room in
        (AddOk room' player, <[roomId := room']> rooms)
  end.

Definition listPlayers (roomId : string) (rooms : Rooms) : ListResult :=
  match getRoom roomId rooms with
  | None => ListError ROOM_NOT_FOUND
  | Some room => ListOk room (Room.players room)
  end.

Definition deleteRoom (id : string) (rooms : Rooms) : bool * Rooms :=
  (bool_decide (is_Some (rooms !! id)), delete id rooms).

Definition removePlayer (roomId playerId : string) (rooms : Rooms)
  : bool * Rooms :=
  match getRoom roomId rooms with
  | None => (false, rooms)
  | Some room =>
      let before := length (Room.players room) in
      let players' :=
        filter (fun p => Player.id p ≠ playerId) (Room.players room) in
      (negb (length players' =? before)%nat,
       <[roomId := Room.withPlayers players' room]> rooms)
  end.

End StoreCode.

(** ** realtime/socket.js *)

(** [socket.data]: the two fields the gateway sets on a join and deletes on
    a leave; [None] is an absent field, read as [undefined]. *)
Record SocketData : Type :=
  { roomId : option string; playerId : option string }.

Module Socket.
(** A connection: its id, its [data] and the Socket.io groups it has
    joined. *)
Record t : Type := mk { id : string; data : SocketData; groups : gset string }.

(** [socket.join(room)] *)
Definition join (room : string) (s : t) : t :=
  mk (id s) (data s) ({[room]} ∪ groups s).

(** [socket.leave(room)] *)
Definition leave (room : string) (s : t) : t :=
  mk (id s) (data s) (groups s ∖ {[room]}).

Definition withData (d : SocketData) (s : t) : t :=
  mk (id s) d (groups s).
End Socket.

Inductive Message : Type :=
| MsgError (error : string) (details : option string)
| MsgRoomJoined (roomId : string) (player : Player.t)
| MsgRoomPlayers (roomId : string) (players : option (list Player.t))
| MsgRoomLeft (roomId : string).

(** [socket.emit(...)] reaches one connection, [io.to(room).emit(...)] the
    group of a room. *)
Inductive Emission : Type :=
| SocketEmit (socketId : string) (m : Message)
| RoomEmit (room : string) (m : Message).

(** What a handler leaves behind. *)
Record Outcome : Type :=
  { socket' : Socket.t; rooms' : Rooms; emitted : list Emission }.

(** The payload of [room:join] after [payload ?? {}]: an absent field is
    [JsUndefined]. *)
Record JoinPayload : Type := { pRoomId : JsValue; pPlayerName : JsValue }.

Definition noPayload : JoinPayload :=
  {| pRoomId := JsUndefined; pPlayerName := JsUndefined |}.

(** [playersResult.players]: [undefined] on the error object. *)
Definition playersOf (r : ListResult) : option (list Player.t) :=
  match r with
  | ListError _ => None
  | ListOk _ players => Some players
  end.

(** [!playersResult.error] *)
Definition noError (r : ListResult) : bool :=
  match r with ListError _ => false | ListOk _ _ => true end.

(** [!value] of a field of [socket.data]. *)
Definition missing (field : option string) : bool :=
  match field with
  | None => true
  | Some s => s =? ""
  end.

Section GatewayCode.

Context `{builtins : !JsStrings}.

Definition onRoomJoin (payload : option JoinPayload) (uuid now : string)
    (socket : Socket.t) (rooms : Rooms) : Outcome :=
  let p := default noPayload payload in
  let roomId := pRoomId p in
  let playerName := pPlayerName p in
  if negb (truthy roomId) || negb (isString roomId) then
    {| socket' := socket; rooms' := rooms;
       emitted := [SocketEmit (Socket.id socket)
                     (MsgError "Bad Request" (Some "roomId required"))] |}
  else if negb (truthy playerName) || negb (isString playerName)
          || (jsLength (trim (str playerName)) <? 2)%nat then
    {| socket' := socket; rooms' := rooms;
       emitted := [SocketEmit (Socket.id socket)
                     (MsgError "Bad Request"
                        (Some "playerName required (min 2 chars)"))] |}
  else
    let '(result, rooms1) := addPlayer (str roomId) (str playerName) uuid now rooms in
    match result with
    | AddError ROOM_NOT_FOUND =>
        {| socket' := socket; rooms' := rooms1;
           emitted := [SocketEmit (Socket.id socket)
                         (MsgError "Room not found" None)] |}
    | AddError NAME_TAKEN =>
        {| socket' := socket; rooms' := rooms1;
           emitted := [SocketEmit (Socket.id socket)
                         (MsgError "Name taken" None)] |}
    | AddOk _ player =>
        let socket1 := Socket.join (str roomId) socket in
        let socket2 :=
          Socket.withData
            {| roomId := Some (str roomId); playerId := Some (Player.id player) |}
            socket1 in
        let playersResult := listPlayers (str roomId) rooms1 in
        {| socket' := socket2; rooms' := rooms1;
           emitted :=
             [SocketEmit (Socket.id socket) (MsgRoomJoined (str roomId) player);
              RoomEmit (str roomId)
                (MsgRoomPlayers (str roomId) (playersOf playersResult))] |}
    end.

Definition onRoomLeave (socket : Socket.t) (rooms : Rooms) : Outcome :=
  let d := Socket.data socket in
  if missing (roomId d) || missing (playerId d) then
    {| socket' := socket; rooms' := rooms; emitted := [] |}
  else
    let roomId := default "" (roomId d) in
    let playerId := default "" (playerId d) in
    let '(_, rooms1) := removePlayer roomId playerId rooms in
    let socket1 := Socket.leave roomId socket in
    let socket2 :=
      Socket.withData {| roomId := None; playerId := None |} socket1 in
    let playersResult := listPlayers roomId rooms1 in
    {| socket' := socket2; rooms' := rooms1;
       emitted :=
         (if noError playersResult
          then [RoomEmit roomId (MsgRoomPlayers roomId (playersOf playersResult))]
          else [])
         ++ [SocketEmit (Socket.id socket) (MsgRoomLeft roomId)] |}.

Definition onDisconnect (socket : Socket.t) (rooms : Rooms) : Outcome :=
  let d := Socket.data socket in
  if missing (roomId d) || missing (playerId d) then
    {| socket' := socket; rooms' := rooms; emitted := [] |}
  else
    let roomId := default "" (roomId d) in
    let playerId := default "" (playerId d) in
    let '(_, rooms1) := removePlayer roomId playerId rooms in
    let playersResult := listPlayers roomId rooms1 in
    {| socket' := socket; rooms' := rooms1;
       emitted :=
         if noError playersResult
         then [RoomEmit roomId (MsgRoomPlayers roomId (playersOf playersResult))]
         else [] |}.

(** The binding a connection holds, as the leave and disconnect handlers
    read it: both fields of [socket.data] present and truthy. *)
Definition binding (socket : Socket.t) : option (string * string) :=
  match roomId (Socket.data socket), playerId (Socket.data socket) with
  | Some r, Some p => if (r =? "") || (p =? "") then None else Some (r, p)
  | _, _ => None
  end.

End GatewayCode.

(** ** routes/rooms.js: the two handlers that write to the store *)

Inductive ResponseBody : Type :=
| BodyError (error : string) (details : option string)
| BodyRoom (room : Room.t)
| BodyJoined (roomId : string) (player : Player.t).

Record Response : Type := { status : nat; body : ResponseBody }.

Section RoutesCode.

Context `{builtins : !JsStrings}.

(** [POST /rooms]; [name] is the field of [req.body ?? {}]. *)
Definition postRooms (name : JsValue) (uuid now : string) (rooms : Rooms)
  : Response * Rooms :=
  if negb (truthy name) || negb (isString name)
     || (jsLength (trim (str name)) <? 2)%nat then
    ({| status := 400;
        body := BodyError "Bad Request"
                  (Some "Field 'name' is required (string, min 2 chars).") |},
     rooms)
  else
    let '(room, rooms1) := createRoom (str name) uuid now rooms in
    ({| status := 201; body := BodyRoom room |}, rooms1).

(** [POST /rooms/:id/join]; [id] is [req.params.id], [playerName] the field
    of [req.body ?? {}]. *)
Definition postRoomsJoin (id : string) (playerName : JsValue)
    (uuid now : string) (rooms : Rooms) : Response * Rooms :=
  if negb (truthy playerName) || negb (isString playerName)
     || (jsLength (trim (str playerName)) <? 2)%nat then
    ({| status := 400;
        body := BodyError "Bad Request"
                  (Some "Field 'playerName' is required (string, min 2 chars).") |},
     rooms)
  else
    let '(result, rooms1) := addPlayer id (str playerName) uuid now rooms in
    match result with
    | AddError ROOM_NOT_FOUND =>
        ({| status := 404; body := BodyError "Room not found" None |}, rooms1)
    | AddError NAME_TAKEN =>
        ({| status := 409;
            body := BodyError "Conflict"
                      (Some "Player name already taken in this room.") |},
         rooms1)
    | AddOk room player =>
        ({| status := 201; body := BodyJoined (Room.id room) player |}, rooms1)
    end.

End RoutesCode.

(** ** Sequences of store operations *)

(** One call of a writer of the store, with the values it draws from the
    environment. *)
Inductive StoreOp : Type :=
| OpCreateRoom (name uuid now : string)
| OpAddPlayer (roomId playerName uuid now : string)
| OpRemovePlayer (roomId playerId : string)
| OpDeleteRoom (id : string).

Section StoreRuns.

Context `{builtins : !JsStrings}.

Definition applyOp (op : StoreOp) (rooms : Rooms) : Rooms :=
  match op with
  | OpCreateRoom name uuid now => (createRoom name uuid now rooms).2
  | OpAddPlayer roomId playerName uuid now =>
      (addPlayer roomId playerName uuid now rooms).2
  | OpRemovePlayer roomId playerId => (removePlayer roomId playerId rooms).2
  | OpDeleteRoom id => (deleteRoom id rooms).2
  end.

Fixpoint runOps (ops : list StoreOp) (rooms : Rooms) : Rooms :=
  match ops with
  | [] => rooms
  | op :: ops' => runOps ops' (applyOp op rooms)
  end.

(** ** Invariants of the registry *)

(** The names of a member sequence, compared as [addPlayer] compares them. *)
Definition lowerNames (players : list Player.t) : list string :=
  (fun p => toLowerCase (Player.name p)) <$> players.

(** No two members of the room, at different positions of its member
    sequence, have names equal up to letter case: equal under
    [toLowerCase], which is how the code compares names. *)
Definition uniqueNames (room : Room.t) : Prop :=
  ∀ (i j : nat) (p q : Player.t),
    Room.players room !! i = Some p →
    Room.players room !! j = Some q →
    i ≠ j →
    toLowerCase (Player.name p) ≠ toLowerCase (Player.name q).

Definition registryUnique (rooms : Rooms) : Prop :=
  ∀ (id : string) (room : Room.t), rooms !! id = Some room → uniqueNames room.

(** Every member name is stored trimmed. *)
Definition namesTrimmed (room : Room.t) : Prop :=
  ∀ p : Player.t, p ∈ Room.players room → trim (Player.name p) = Player.name p.

Definition registryTrimmed (rooms : Rooms) : Prop :=
  ∀ (id : string) (room : Room.t), rooms !! id = Some room → namesTrimmed room.

(** The member sequence of a room, [None] when the room does not exist. *)
Definition members (roomId : string) (rooms : Rooms) : option (list Player.t) :=
  Room.players <$> rooms !! roomId.

End StoreRuns.

(** ** roomsStore.js: the lobby summary *)

(** One entry of [listRooms]. *)
Record RoomSummary : Type :=
  { sId : string; sName : string; playersCount : nat; sCreatedAt : string }.

Definition summaryOf (r : Room.t) : RoomSummary :=
  {| sId := Room.id r; sName := Room.name r;
     playersCount := length (Room.players r); sCreatedAt := Room.createdAt r |}.

(** [Array.from(rooms.values()).map(...)].  The registry does not record the
    insertion order of the Map, so the order of the entries is not the
    source's; what is listed is. *)
Definition listRooms (rooms : Rooms) : list RoomSummary :=
  summaryOf <$> (map_to_list rooms).*2.

(** Every room is stored under its own id. *)
Definition registryKeyed (rooms : Rooms) : Prop :=
  ∀ (k : string) (room : Room.t), rooms !! k = Some room → Room.id room = k.

(** The ids of the members of a room. *)
Definition playerIds (room : Room.t) : list string :=
  Player.id <$> Room.players room.

(** ** routes/rooms.js: the handlers that read, and the delete *)

Inductive ReplyBody : Type :=
| ReplyRooms (rooms : list RoomSummary)
| ReplyRoom (room : Room.t)
| ReplyPlayers (roomId : string) (players : list Player.t)
| ReplyError (error : string)
| ReplyEmpty.

Record Reply : Type := { code : nat; reply : ReplyBody }.

(** [GET /rooms] *)
Definition getRooms (rooms : Rooms) : Reply :=
  {| code := 200; reply := ReplyRooms (listRooms rooms) |}.

(** [GET /rooms/:id] *)
Definition getRoomById (id : string) (rooms : Rooms) : Reply :=
  match getRoom id rooms with
  | None => {| code := 404; reply := ReplyError "Room not found" |}
  | Some room => {| code := 200; reply := ReplyRoom room |}
  end.

(** [GET /rooms/:id/players].  The handler tests for [ROOM_NOT_FOUND] only
    and then reads [result.room.id]; on another error object that read
    throws and the error middleware answers 500.  [listPlayers] returns no
    other error. *)
Definition getRoomPlayers (id : string) (rooms : Rooms) : Reply :=
  match listPlayers id rooms with
  | ListError ROOM_NOT_FOUND =>
      {| code := 404; reply := ReplyError "Room not found" |}
  | ListError NAME_TAKEN =>
      {| code := 500;
         reply := ReplyError "Cannot read properties of undefined (reading 'id')" |}
  | ListOk room players =>
      {| code := 200; reply := ReplyPlayers (Room.id room) players |}
  end.

(** [DELETE /rooms/:id] *)
Definition deleteRoomById (id : string) (rooms : Rooms) : Reply * Rooms :=
  let '(ok, rooms1) := deleteRoom id rooms in
  if negb ok then ({| code := 404; reply := ReplyError "Room not found" |}, rooms1)
  else ({| code := 204; reply := ReplyEmpty |}, rooms1).

Section ValidNames.

Context `{builtins : !JsStrings}.

(** A field the two [POST] handlers and the join handler accept as a name:
    a non-empty string whose trimmed [length] is two at least. *)
Definition validName (v : JsValue) : bool :=
  truthy v && isString v && (2 <=? jsLength (trim (str v)))%nat.

End ValidNames.

(** ** The server: connections and requests, one event at a time

    [setupSocket] registers the three handlers on every connection, and the
    router serves the requests; Node runs one handler to its end before the
    next.  The server is the registry together with the connected sockets,
    by socket id. *)

Record Server : Type :=
  { registry : Rooms; sockets : gmap string Socket.t }.

Definition initialServer : Server := {| registry := ∅; sockets := ∅ |}.

Inductive SocketEvent : Type :=
| EvConnection (sid : string)
| EvRoomJoin (sid : string) (payload : option JoinPayload) (uuid now : string)
| EvRoomLeave (sid : string)
| EvDisconnect (sid : string).

Inductive Request : Type :=
| ReqPostRooms (name : JsValue) (uuid now : string)
| ReqPostRoomsJoin (id : string) (playerName : JsValue) (uuid now : string)
| ReqDeleteRoom (id : string).

Inductive ServerEvent : Type :=
| OnSocket (e : SocketEvent)
| OnRequest (r : Request).

(** A fresh connection: empty [data]; Socket.io puts it in the group of its
    own id. *)
Definition newSocket (sid : string) : Socket.t :=
  Socket.mk sid {| roomId := None; playerId := None |} {[sid]}.

Section ServerCode.

Context `{builtins : !JsStrings}.

(** An event of a connection runs the handler on that connection's socket;
    after [disconnect] the socket is gone.  An event names a connected
    socket; for another id nothing runs. *)
Definition onSocketEvent (e : SocketEvent) (s : Server)
  : Server * list Emission :=
  match e with
  | EvConnection sid =>
      ({| registry := registry s;
          sockets := <[sid := newSocket sid]> (sockets s) |}, [])
  | EvRoomJoin sid payload uuid now =>
      match sockets s !! sid with
      | None => (s, [])
      | Some socket =>
          let o := onRoomJoin payload uuid now socket (registry s) in
          ({| registry := rooms' o;
              sockets := <[sid := socket' o]> (sockets s) |}, emitted o)
      end
  | EvRoomLeave sid =>
      match sockets s !! sid with
      | None => (s, [])
      | Some socket =>
          let o := onRoomLeave socket (registry s) in
          ({| registry := rooms' o;
              sockets := <[sid := socket' o]> (sockets s) |}, emitted o)
      end
  | EvDisconnect sid =>
      match sockets s !! sid with
      | None => (s, [])
      | Some socket =>
          let o := onDisconnect socket (registry s) in
          ({| registry := rooms' o; sockets := delete sid (sockets s) |},
           emitted o)
      end
  end.

(** The requests that write; none of them emits to a socket. *)
Definition onRequest (r : Request) (s : Server) : Server :=
  match r with
  | ReqPostRooms name uuid now =>
      {| registry := (postRooms name uuid now (registry s)).2;
         sockets := sockets s |}
  | ReqPostRoomsJoin id playerName uuid now =>
      {| registry := (postRoomsJoin id playerName uuid now (registry s)).2;
         sockets := sockets s |}
  | ReqDeleteRoom id =>
      {| registry := (deleteRoomById id (registry s)).2; sockets := sockets s |}
  end.

Definition serve (e : ServerEvent) (s : Server) : Server * list Emission :=
  match e with
  | OnSocket e => onSocketEvent e s
  | OnRequest r => (onRequest r s, [])
  end.

Fixpoint runServer (es : list ServerEvent) (s : Server)
  : Server * list Emission :=
  match es with
  | [] => (s, [])
  | e :: es' =>
      let '(s1, out1) := serve e s in
      let '(s2, out2) := runServer es' s1 in
      (s2, out1 ++ out2)
  end.

(** A store operation whose name the caller has validated. *)
Definition validatedOp (op : StoreOp) : Prop :=
  match op with
  | OpCreateRoom name _ _ => (2 ≤ jsLength (trim name))%nat
  | OpAddPlayer _ playerName _ _ => (2 ≤ jsLength (trim playerName))%nat
  | OpRemovePlayer _ _ | OpDeleteRoom _ => True
  end.

(** A display name as the data model wants it: trimmed, of [length] two
    at least. *)
Definition nameOk (n : string) : Prop :=
  trim n = n ∧ (2 ≤ jsLength n)%nat.

Definition registryNamed (rooms : Rooms) : Prop :=
  ∀ (k : string) (room : Room.t), rooms !! k = Some room →
    nameOk (Room.name room)
    ∧ ∀ p, p ∈ Room.players room → nameOk (Player.name p).

(** Every binding names a room of the registry and a member of it. *)
Definition bindingsLive (s : Server) : Prop :=
  ∀ (sid : string) (socket : Socket.t) (r p : string),
    sockets s !! sid = Some socket → binding socket = Some (r, p) →
    ∃ room, registry s !! r = Some room ∧ p ∈ playerIds room.

(** No two connections are bound to the same member. *)
Definition bindingsDistinct (s : Server) : Prop :=
  ∀ (sid1 sid2 : string) (socket1 socket2 : Socket.t) (b : string * string),
    sockets s !! sid1 = Some socket1 → sockets s !! sid2 = Some socket2 →
    binding socket1 = Some b → binding socket2 = Some b → sid1 = sid2.

(** The members of a room have different ids. *)
Definition idsUnique (rooms : Rooms) : Prop :=
  ∀ (k : string) (room : Room.t), rooms !! k = Some room → NoDup (playerIds room).

(** The id drawn for a player is carried by no member of any room. *)
Definition freshPlayerId (uuid : string) (rooms : Rooms) : Prop :=
  map_Forall (fun _ room => uuid ∉ playerIds room) rooms.

(** No connection is bound to the room. *)
Definition unboundRoom (id : string) (socks : gmap string Socket.t) : Prop :=
  map_Forall (fun _ socket => fst <$> binding socket ≠ Some id) socks.

(** What the environment is trusted with: the ids it draws are new, and a
    room is deleted only when no connection is bound to it. *)
Definition admissible (e : ServerEvent) (s : Server) : Prop :=
  match e with
  | OnSocket (EvRoomJoin _ _ uuid _) => freshPlayerId uuid (registry s)
  | OnRequest (ReqPostRoomsJoin _ _ uuid _) => freshPlayerId uuid (registry s)
  | OnRequest (ReqPostRooms _ uuid _) => registry s !! uuid = None
  | OnRequest (ReqDeleteRoom id) => unboundRoom id (sockets s)
  | _ => True
  end.

Fixpoint admissibleRun (es : list ServerEvent) (s : Server) : Prop :=
  match es with
  | [] => True
  | e :: es' => admissible e s ∧ admissibleRun es' (serve e s).1
  end.

(** The three together. *)
Definition serverInv (s : Server) : Prop :=
  bindingsLive s ∧ bindingsDistinct s ∧ idsUnique (registry s).

(** How the sockets may differ after an event of connection [sid]: every
    socket is the one it was, or it is [sid]'s and is unbound or bound
    to [b]. *)
Definition evolves (sid : string) (b : option (string * string))
    (old new : gmap string Socket.t) : Prop :=
  ∀ (sid' : string) (socket' : Socket.t), new !! sid' = Some socket' →
    old !! sid' = Some socket'
    ∨ (sid' = sid ∧ (binding socket' = None ∨ binding socket' = b)).

End ServerCode.

(** ** The client: App.jsx

    The state of the component and the functions that update it: the
    listeners it registers on its socket and the handlers of its two
    buttons.  Each run of one of them is one update of the state. *)

Module App.

(** The six [useState] cells. *)
Record t : Type :=
  mk { roomId : string; playerName : string; connected : bool;
       joinedRoomId : option string; players : list Player.t;
       error : option string }.

(** [e?.details || e?.error || "Unknown error"] *)
Definition errorText (error : string) (details : option string) : string :=
  let orError := if error =? "" then "Unknown error" else error in
  match details with
  | None => orError
  | Some d => if d =? "" then orError else d
  end.

(** The listeners of [room:joined], [room:left], [room:players] and
    [error]. *)
Definition onMessage (m : Message) (st : t) : t :=
  match m with
  | MsgRoomJoined r _ =>
      mk (roomId st) (playerName st) (connected st) (Some r) (players st) None
  | MsgRoomLeft _ =>
      mk (roomId st) (playerName st) (connected st) None [] None
  | MsgRoomPlayers _ ps =>
      mk (roomId st) (playerName st) (connected st) (joinedRoomId st)
        (default [] ps) (error st)
  | MsgError e d =>
      mk (roomId st) (playerName st) (connected st) (joinedRoomId st)
        (players st) (Some (errorText e d))
  end.

(** The messages of the server, in the order they arrive. *)
Definition receive (ms : list Message) (st : t) : t :=
  foldl (fun st m => onMessage m st) st ms.

(** The listeners of [connect] and [disconnect]. *)
Definition onConnect (st : t) : t :=
  mk (roomId st) (playerName st) true (joinedRoomId st) (players st) (error st).

Definition onDisconnect (st : t) : t :=
  mk (roomId st) (playerName st) false (joinedRoomId st) (players st) (error st).

(** What a button handler asks of the client's socket. *)
Inductive SocketCall : Type :=
| CallConnect
| CallEmitJoin (payload : JoinPayload)
| CallEmitLeave.

(** [connectIfNeeded]; [socketConnected] is [socket.connected]. *)
Definition connectIfNeeded (socketConnected : bool) : list SocketCall :=
  if negb socketConnected then [CallConnect] else [].

Section JoinRoom.

Context `{builtins : !JsStrings}.

(** [joinRoom]: the new state and the calls on the socket, in order. *)
Definition joinRoom (socketConnected : bool) (st : t) : t * list SocketCall :=
  if (trim (roomId st) =? "") || (trim (playerName st) =? "") then
    (mk (roomId st) (playerName st) (connected st) (joinedRoomId st)
       (players st) (Some "RoomId y playerName son obligatorios"),
     [])
  else
    (mk (roomId st) (playerName st) (connected st) (joinedRoomId st)
       (players st) None,
     connectIfNeeded socketConnected
     ++ [CallEmitJoin {| pRoomId := JsStr (trim (roomId st));
                         pPlayerName := JsStr (trim (playerName st)) |}]).

End JoinRoom.

(** Once [socket.connect()] has been called and the connection is made,
    the [connect] listener runs; the calls emitted meanwhile are sent
    after it. *)
Definition connectedBy (calls : list SocketCall) (st : t) : t :=
  if existsb (fun c => match c with CallConnect => true | _ => false end) calls
  then onConnect st else st.


End App.

(** The messages of a handler's emissions that reach a connection: those
    emitted to it, and those emitted to a group it is in.  Each handler
    changes the groups of its own socket before it emits, so for that
    socket the groups are those of the handler's outcome. *)
Definition deliveredTo (socket : Socket.t) (es : list Emission) : list Message :=
  omap
    (fun e =>
       match e with
       | SocketEmit sid m =>
           if bool_decide (sid = Socket.id socket) then Some m else None
       | RoomEmit r m =>
           if bool_decide (r ∈ Socket.groups socket) then Some m else None
       end)
    es.

(** ** Outcomes of the handlers *)

(** The member list a handler broadcasts after its call of [removePlayer]. *)
Definition snapshotAfter (r : string) (rooms : Rooms) : list Emission :=
  match members r rooms with
  | Some players => [RoomEmit r (MsgRoomPlayers r (Some players))]
  | None => []
  end.

Section Outcomes.

Context `{builtins : !JsStrings}.

(** A join that passes the two validations and is admitted by the store. *)
Definition joinedOutcome (r n uuid now : string) (socket : Socket.t)
    (rooms : Rooms) (room : Room.t) : Outcome :=
  let player := Player.mk uuid (trim n) now in
  let room' := Room.withPlayers (Room.players room ++ [player]) room in
  {| socket' :=
       Socket.withData {| roomId := Some r; playerId := Some uuid |}
         (Socket.join r socket);
     rooms' := <[r := room']> rooms;
     emitted :=
       [SocketEmit (Socket.id socket) (MsgRoomJoined r player);
        RoomEmit r (MsgRoomPlayers r (Some (Room.players room ++ [player])))] |}.

(** A join that is refused: one private [error] event, nothing else. *)
Definition refusedOutcome (error : string) (details : option string)
    (socket : Socket.t) (rooms : Rooms) : Outcome :=
  {| socket' := socket; rooms' := rooms;
     emitted := [SocketEmit (Socket.id socket) (MsgError error details)] |}.

End Outcomes.

(** ** The built-ins on ASCII text

    Functions that compute what [trim], [toLowerCase] and [length] return
    on strings of ASCII characters.  They are not the built-ins (on other
    strings they differ from them); they are used to run the model on
    ASCII text, in the scenarios below.  The theorems about the code are
    stated for every [JsStrings], not for these functions. *)

Module AsciiText.

(** White space and line terminators of the ASCII range: TAB, LF, VT, FF,
    CR and SPACE. *)
Definition isWhiteSpace (c : ascii) : bool :=
  let n := N_of_ascii c in
  ((9 <=? n) && (n <=? 13) || (n =? 32))%N.

Fixpoint trimStart (s : string) : string :=
  match s with
  | EmptyString => EmptyString
  | String c s' => if isWhiteSpace c then trimStart s' else s
  end.

Fixpoint trimEnd (s : string) : string :=
  match s with
  | EmptyString => EmptyString
  | String c s' =>
      match trimEnd s' with
      | EmptyString => if isWhiteSpace c then EmptyString else String c EmptyString
      | t => String c t
      end
  end.

(** [trim] on ASCII text. *)
Definition trim (s : string) : string := trimEnd (trimStart s).

Definition toLowerChar (c : ascii) : ascii :=
  let n := N_of_ascii c in
  if ((65 <=? n) && (n <=? 90))%N then ascii_of_N (n + 32) else c.

(** [toLowerCase] on ASCII text. *)
Fixpoint toLowerCase (s : string) : string :=
  match s with
  | EmptyString => EmptyString
  | String c s' => String (toLowerChar c) (toLowerCase s')
  end.

(** A string that is empty or starts with a character [trim] keeps. *)
Definition startsClean (s : string) : bool :=
  match s with
  | EmptyString => true
  | String c _ => negb (isWhiteSpace c)
  end.

End AsciiText.

Definition asciiStrings : JsStrings :=
  {| trim := AsciiText.trim;
     toLowerCase := AsciiText.toLowerCase;
     jsLength := String.length |}.

(** ** Scenarios

    Concrete registries and connections, used to run the handlers. *)

Section Scenarios.

#[local] Existing Instance asciiStrings.

(** Room "Table A" with Alice in it. *)
Definition tableAOps : list StoreOp :=
  [OpCreateRoom "Table A" "room-a" "t0";
   OpAddPlayer "room-a" "Alice" "player-1" "t1"].

Definition alice : Player.t := Player.mk "player-1" "Alice" "t1".

Definition tableA : Room.t := Room.mk "room-a" "Table A" [alice] "t0".

Definition roomsA : Rooms := runOps tableAOps ∅.

(** "Table A" with Alice in it, and an empty "Table B". *)
Definition roomsAB : Rooms :=
  runOps [OpCreateRoom "Table B" "room-b" "t2"] roomsA.

(** A connection that never joined, and Alice's connection. *)
Definition idleSocket : Socket.t :=
  Socket.mk "socket-0" {| roomId := None; playerId := None |} ∅.

Definition aliceSocket : Socket.t :=
  Socket.mk "socket-1"
    {| roomId := Some "room-a"; playerId := Some "player-1" |} {["room-a"]}.

(** Alice's connection joins "Table B" while bound to "Table A", then
    disconnects. *)
Definition joinTableB : option JoinPayload :=
  Some {| pRoomId := JsStr "room-b"; pPlayerName := JsStr "Alice" |}.

Definition secondJoin : Outcome :=
  onRoomJoin joinTableB "player-2" "t3" aliceSocket roomsAB.

Definition disconnectAfterSecondJoin : Outcome :=
  onDisconnect (socket' secondJoin) (rooms' secondJoin).

(** A run of the server: a room is created, two connections join it, one
    leaves and the other is lost. *)
Definition lobbyRun : list ServerEvent :=
  [OnRequest (ReqPostRooms (JsStr "Table A") "room-a" "t0");
   OnSocket (EvConnection "socket-1");
   OnSocket (EvConnection "socket-2");
   OnSocket (EvRoomJoin "socket-1"
               (Some {| pRoomId := JsStr "room-a"; pPlayerName := JsStr "Alice" |})
               "player-1" "t1");
   OnSocket (EvRoomJoin "socket-2"
               (Some {| pRoomId := JsStr "room-a"; pPlayerName := JsStr "Bob" |})
               "player-2" "t2");
   OnSocket (EvRoomLeave "socket-1");
   OnSocket (EvDisconnect "socket-2")].

(** A client about to join "Table A" as Bob, and Alice's client. *)
Definition bobApp : App.t :=
  App.mk " room-a " " Bob " false None [] None.

Definition aliceApp : App.t :=
  App.mk "room-a" "Alice" true (Some "room-a") [alice] None.

(** Bob presses Join with his socket not yet connected. *)
Definition bobJoin : App.t * list App.SocketCall := App.joinRoom false bobApp.

End Scenarios.

(** ** The built-ins on ASCII text: the facts the theorems assume *)

Section StringFacts.

Import AsciiText.

Lemma ascii_isWhiteSpace_toLowerChar (c : ascii) :
  isWhiteSpace (toLowerChar c) = isWhiteSpace c.
Proof. by destruct c as [[] [] [] [] [] [] [] []]. Qed.

Lemma ascii_trimStart_startsClean (s : string) : startsClean (trimStart s) = true.
Proof.
  induction s as [|c s IH]; [done|].
  simpl. destruct (isWhiteSpace c) eqn:Hc; [done|]. simpl. by rewrite Hc.
Qed.

Lemma ascii_trimStart_fixed (s : string) : startsClean s = true → trimStart s = s.
Proof.
  destruct s as [|c s]; [done|]. simpl.
  by destruct (isWhiteSpace c).
Qed.

Lemma ascii_trimEnd_startsClean (s : string) :
  startsClean s = true → startsClean (trimEnd s) = true.
Proof.
  destruct s as [|c s]; [done|]. simpl. intros Hc.
  destruct (trimEnd s); [|done].
  destruct (isWhiteSpace c) eqn:Hw; [done|]. simpl. by rewrite Hw.
Qed.

Lemma ascii_trimEnd_idemp (s : string) : trimEnd (trimEnd s) = trimEnd s.
Proof.
  induction s as [|c s IH]; [done|].
  simpl. destruct (trimEnd s) as [|d t] eqn:Ht.
  - destruct (isWhiteSpace c) eqn:Hc; [done|]. simpl. by rewrite Hc.
  - change (trimEnd (String c (String d t))) with
      (match trimEnd (String d t) with
       | EmptyString => if isWhiteSpace c then EmptyString else String c EmptyString
       | u => String c u
       end).
    by rewrite IH.
Qed.

Lemma ascii_trim_idemp (s : string) : trim (trim s) = trim s.
Proof.
  unfold trim.
  rewrite (ascii_trimStart_fixed (trimEnd (trimStart s))).
  - apply ascii_trimEnd_idemp.
  - apply ascii_trimEnd_startsClean, ascii_trimStart_startsClean.
Qed.

Lemma ascii_trimStart_toLowerCase (s : string) :
  trimStart (toLowerCase s) = toLowerCase (trimStart s).
Proof.
  induction s as [|c s IH]; [done|].
  simpl. rewrite ascii_isWhiteSpace_toLowerChar.
  by destruct (isWhiteSpace c).
Qed.

Lemma ascii_trimEnd_toLowerCase (s : string) :
  trimEnd (toLowerCase s) = toLowerCase (trimEnd s).
Proof.
  induction s as [|c s IH]; [done|].
  simpl. rewrite IH, ascii_isWhiteSpace_toLowerChar.
  destruct (trimEnd s); simpl; [|done].
  by destruct (isWhiteSpace c).
Qed.

Lemma ascii_trim_toLowerCase (s : string) :
  trim (toLowerCase s) = toLowerCase (trim s).
Proof. unfold trim. by rewrite ascii_trimStart_toLowerCase, ascii_trimEnd_toLowerCase. Qed.

(** On ASCII text the two assumed facts hold. *)
Lemma asciiStrings_trimIdempotent : @trimIdempotent asciiStrings.
Proof. intros s. apply ascii_trim_idemp. Qed.

Lemma asciiStrings_trimCommutes : @trimCommutesWithToLowerCase asciiStrings.
Proof. intros s. apply ascii_trim_toLowerCase. Qed.

End StringFacts.

(** ** The store: what each call does *)

Section StoreFacts.

Context `{builtins : !JsStrings}.

Implicit Types (rooms : Rooms) (room : Room.t) (p : Player.t).

(** The scan of [addPlayer]: [some] over the member names. *)
Lemma nameTaken_spec (players : list Player.t) (n : string) :
  existsb (fun p => toLowerCase (Player.name p) =? n) players = true
  ↔ n ∈ lowerNames players.
Proof.
  unfold lowerNames. rewrite existsb_exists, list_elem_of_fmap. split.
  - intros (p & Hin & Heq). apply String.eqb_eq in Heq.
    exists p. split; [done|]. by apply list_elem_of_In.
  - intros (p & -> & Hin). exists p. split.
    + by apply list_elem_of_In.
    + apply String.eqb_refl.
Qed.

Lemma nameTaken_false (players : list Player.t) (n : string) :
  existsb (fun p => toLowerCase (Player.name p) =? n) players = false
  ↔ n ∉ lowerNames players.
Proof.
  rewrite <- nameTaken_spec.
  destruct (existsb _ players); split; (done || congruence).
Qed.

Lemma uniqueNames_NoDup room :
  uniqueNames room ↔ NoDup (lowerNames (Room.players room)).
Proof.
  unfold uniqueNames, lowerNames. rewrite NoDup_alt. split.
  - intros H i j x Hi Hj.
    rewrite list_lookup_fmap in Hi, Hj.
    destruct (Room.players room !! i) as [p|] eqn:Hp; [|done].
    destruct (Room.players room !! j) as [q|] eqn:Hq; [|done].
    simpl in *. destruct (decide (i = j)) as [|Hne]; [done|].
    exfalso. apply (H i j p q Hp Hq Hne). congruence.
  - intros H i j p q Hp Hq Hne Heq. apply Hne.
    apply (H i j (toLowerCase (Player.name p)));
      rewrite list_lookup_fmap.
    + by rewrite Hp.
    + rewrite Hq. simpl. by rewrite Heq.
Qed.

Lemma addPlayer_not_found roomId playerName uuid now rooms :
  rooms !! roomId = None →
  addPlayer roomId playerName uuid now rooms = (AddError ROOM_NOT_FOUND, rooms).
Proof. intros H. unfold addPlayer, getRoom. by rewrite H. Qed.

Lemma addPlayer_taken roomId playerName uuid now rooms room :
  rooms !! roomId = Some room →
  toLowerCase (trim playerName) ∈ lowerNames (Room.players room) →
  addPlayer roomId playerName uuid now rooms = (AddError NAME_TAKEN, rooms).
Proof.
  intros H Hin. unfold addPlayer, getRoom. rewrite H.
  apply nameTaken_spec in Hin. by rewrite Hin.
Qed.

Lemma addPlayer_fresh roomId playerName uuid now rooms room :
  rooms !! roomId = Some room →
  toLowerCase (trim playerName) ∉ lowerNames (Room.players room) →
  let player := Player.mk uuid (trim playerName) now in
  let room' := Room.withPlayers (Room.players room ++ [player]) room in
  addPlayer roomId playerName uuid now rooms
  = (AddOk room' player, <[roomId := room']> rooms).
Proof.
  intros H Hin. unfold addPlayer, getRoom. rewrite H.
  apply nameTaken_false in Hin. by rewrite Hin.
Qed.

(** The three outcomes of [addPlayer] are the only ones. *)
Lemma addPlayer_cases roomId playerName uuid now rooms :
  (rooms !! roomId = None
   ∧ addPlayer roomId playerName uuid now rooms = (AddError ROOM_NOT_FOUND, rooms))
  ∨ (∃ room, rooms !! roomId = Some room
       ∧ toLowerCase (trim playerName) ∈ lowerNames (Room.players room)
       ∧ addPlayer roomId playerName uuid now rooms = (AddError NAME_TAKEN, rooms))
  ∨ (∃ room, rooms !! roomId = Some room
       ∧ (toLowerCase (trim playerName) ∉ lowerNames (Room.players room))
       ∧ addPlayer roomId playerName uuid now rooms
         = (AddOk (Room.withPlayers
                     (Room.players room ++ [Player.mk uuid (trim playerName) now])
                     room)
              (Player.mk uuid (trim playerName) now),
            <[roomId :=
                Room.withPlayers
                  (Room.players room ++ [Player.mk uuid (trim playerName) now])
                  room]> rooms)).
Proof.
  destruct (rooms !! roomId) as [room|] eqn:H.
  - right.
    destruct (decide (toLowerCase (trim playerName)
                        ∈ lowerNames (Room.players room))) as [Hin|Hout].
    + left. exists room. eauto using addPlayer_taken.
    + right. exists room. split; [done|]. split; [done|].
      by apply addPlayer_fresh.
  - left. eauto using addPlayer_not_found.
Qed.

Lemma removePlayer_not_found roomId playerId rooms :
  rooms !! roomId = None → removePlayer roomId playerId rooms = (false, rooms).
Proof. intros H. unfold removePlayer, getRoom. by rewrite H. Qed.

Lemma removePlayer_found roomId playerId rooms room :
  rooms !! roomId = Some room →
  let players' := filter (fun p => Player.id p ≠ playerId) (Room.players room) in
  removePlayer roomId playerId rooms
  = (negb (length players' =? length (Room.players room))%nat,
     <[roomId := Room.withPlayers players' room]> rooms).
Proof. intros H. unfold removePlayer, getRoom. by rewrite H. Qed.

(** [filter] keeps the whole list exactly when it keeps its length. *)
Lemma filter_length_eq {A} (P : A → Prop) `{!∀ x, Decision (P x)} (l : list A) :
  length (filter P l) = length l ↔ filter P l = l.
Proof.
  split; [|by intros ->].
  induction l as [|x l IH]; [done|].
  rewrite filter_cons. destruct (decide (P x)) as [HP|HP]; simpl.
  - intros Hlen. f_equal. apply IH. lia.
  - intros Hlen. pose proof (length_filter P l). lia.
Qed.

Lemma filter_id_iff {A} (P : A → Prop) `{!∀ x, Decision (P x)} (l : list A) :
  filter P l = l ↔ ∀ x, x ∈ l → P x.
Proof.
  split.
  - intros Heq x Hx. rewrite <- Heq in Hx.
    by apply list_elem_of_filter in Hx as [? _].
  - induction l as [|x l IH]; [done|]. intros Hall.
    rewrite filter_cons, decide_True by (apply Hall; left).
    f_equal. apply IH. intros y Hy. apply Hall. by right.
Qed.

Lemma withPlayers_same room : Room.withPlayers (Room.players room) room = room.
Proof. by destruct room. Qed.

(** The boolean [removePlayer] returns. *)
Lemma removePlayer_true roomId playerId rooms :
  (removePlayer roomId playerId rooms).1 = true
  ↔ ∃ room p, rooms !! roomId = Some room
              ∧ p ∈ Room.players room ∧ Player.id p = playerId.
Proof.
  destruct (rooms !! roomId) as [room|] eqn:H.
  - rewrite (removePlayer_found _ _ _ _ H). simpl.
    rewrite negb_true_iff, Nat.eqb_neq, filter_length_eq, filter_id_iff.
    split.
    + intros Hne. exists room.
      destruct (decide (Exists (fun p => Player.id p = playerId)
                          (Room.players room))) as [Hex|Hnex].
      * apply Exists_exists in Hex as (p & Hp & Hid). eauto.
      * exfalso. apply Hne. intros p Hp Hid. apply Hnex, Exists_exists. eauto.
    + intros (room' & p & Hroom & Hp & Hid) Hall.
      injection Hroom as <-. by apply (Hall p Hp).
  - rewrite (removePlayer_not_found _ _ _ H). simpl. split; [done|].
    by intros (room & p & Hroom & _).
Qed.

Lemma removePlayer_false_same roomId playerId rooms :
  (removePlayer roomId playerId rooms).1 = false →
  (removePlayer roomId playerId rooms).2 = rooms.
Proof.
  destruct (rooms !! roomId) as [room|] eqn:H.
  - rewrite (removePlayer_found _ _ _ _ H). simpl.
    rewrite negb_false_iff, Nat.eqb_eq, filter_length_eq. intros ->.
    rewrite withPlayers_same. by apply insert_id.
  - by rewrite (removePlayer_not_found _ _ _ H).
Qed.

Lemma members_removePlayer roomId playerId rooms :
  members roomId (removePlayer roomId playerId rooms).2
  = filter (fun p => Player.id p ≠ playerId) <$> members roomId rooms.
Proof.
  unfold members. destruct (rooms !! roomId) as [room|] eqn:H.
  - rewrite (removePlayer_found _ _ _ _ H). simpl.
    by rewrite lookup_insert_eq.
  - rewrite (removePlayer_not_found _ _ _ H). simpl. by rewrite H.
Qed.

Lemma members_removePlayer_other roomId roomId' playerId rooms :
  roomId ≠ roomId' →
  members roomId' (removePlayer roomId playerId rooms).2 = members roomId' rooms.
Proof.
  intros Hne. unfold members, removePlayer, getRoom.
  destruct (rooms !! roomId); simpl; [|done].
  by rewrite lookup_insert_ne.
Qed.

Lemma removePlayer_again roomId playerId rooms :
  removePlayer roomId playerId (removePlayer roomId playerId rooms).2
  = (false, (removePlayer roomId playerId rooms).2).
Proof.
  set (rooms1 := (removePlayer roomId playerId rooms).2).
  assert ((removePlayer roomId playerId rooms1).1 = false) as Hfalse.
  { apply not_true_is_false. rewrite removePlayer_true.
    intros (room & p & Hroom & Hp & Hid).
    assert (members roomId rooms1 = Some (Room.players room)) as Hm
      by (unfold members; by rewrite Hroom).
    unfold rooms1 in Hm. rewrite members_removePlayer in Hm.
    destruct (members roomId rooms) as [ps|]; [|done].
    simpl in Hm. injection Hm as Hm. rewrite <- Hm in Hp.
    by apply list_elem_of_filter in Hp as [Hp _]. }
  pose proof (removePlayer_false_same _ _ _ Hfalse) as Hsame.
  destruct (removePlayer roomId playerId rooms1) as [b rooms2].
  simpl in *. by subst.
Qed.

End StoreFacts.

(** ** The invariants along sequences of store operations *)

Section Invariants.

Context `{builtins : !JsStrings}.

Implicit Types (rooms : Rooms) (room : Room.t) (p : Player.t).

Lemma registryUnique_empty : registryUnique ∅.
Proof. intros id room H. by rewrite lookup_empty in H. Qed.

Lemma registryTrimmed_empty : registryTrimmed ∅.
Proof. intros id room H. by rewrite lookup_empty in H. Qed.

Lemma registryUnique_insert id room rooms :
  uniqueNames room → registryUnique rooms → registryUnique (<[id := room]> rooms).
Proof.
  intros Hroom Hrooms id' room' H.
  rewrite lookup_insert in H. case_decide.
  - by injection H as <-.
  - by apply (Hrooms id').
Qed.

Lemma registryTrimmed_insert id room rooms :
  namesTrimmed room → registryTrimmed rooms → registryTrimmed (<[id := room]> rooms).
Proof.
  intros Hroom Hrooms id' room' H.
  rewrite lookup_insert in H. case_decide.
  - by injection H as <-.
  - by apply (Hrooms id').
Qed.

Lemma lowerNames_filter (P : Player.t → Prop) `{!∀ p, Decision (P p)}
    (players : list Player.t) :
  NoDup (lowerNames players) → NoDup (lowerNames (filter P players)).
Proof.
  unfold lowerNames. induction players as [|p ps IH]; [done|].
  rewrite fmap_cons, NoDup_cons. intros [Hp Hps].
  rewrite filter_cons. destruct (decide (P p)); [|by apply IH].
  rewrite fmap_cons, NoDup_cons. split; [|by apply IH].
  intros Hin. apply Hp.
  apply list_elem_of_fmap in Hin as (q & Hq & Hin).
  apply list_elem_of_filter in Hin as [_ Hin].
  apply list_elem_of_fmap. eauto.
Qed.

Lemma registryUnique_applyOp op rooms :
  registryUnique rooms → registryUnique (applyOp op rooms).
Proof.
  intros Hrooms.
  destruct op as [name uuid now|roomId playerName uuid now|roomId playerId|id];
    simpl.
  - apply registryUnique_insert; [|done].
    intros i j p q Hp. simpl in Hp. by rewrite lookup_nil in Hp.
  - destruct (addPlayer_cases roomId playerName uuid now rooms)
      as [[_ ->]|[(room & _ & _ & ->)|(room & Hroom & Hfresh & ->)]];
      simpl; [done|done|].
    apply registryUnique_insert; [|done].
    apply uniqueNames_NoDup. simpl.
    unfold lowerNames. rewrite fmap_app. apply NoDup_app.
    split; [by apply uniqueNames_NoDup, (Hrooms roomId)|]. split.
    + intros n Hn Hn'. apply list_elem_of_singleton in Hn'. simpl in Hn'.
      by subst n.
    + apply NoDup_singleton.
  - unfold removePlayer, getRoom.
    destruct (rooms !! roomId) as [room|] eqn:Hroom; simpl; [|done].
    apply registryUnique_insert; [|done].
    apply uniqueNames_NoDup. simpl.
    by apply lowerNames_filter, uniqueNames_NoDup, (Hrooms roomId).
  - intros id' room' H. apply lookup_delete_Some in H as [_ H].
    by apply (Hrooms id').
Qed.

Lemma registryTrimmed_applyOp op rooms :
  trimIdempotent → registryTrimmed rooms → registryTrimmed (applyOp op rooms).
Proof.
  intros Hidem Hrooms.
  destruct op as [name uuid now|roomId playerName uuid now|roomId playerId|id];
    simpl.
  - apply registryTrimmed_insert; [|done].
    intros p Hp. simpl in Hp. by apply elem_of_nil in Hp.
  - destruct (addPlayer_cases roomId playerName uuid now rooms)
      as [[_ ->]|[(room & _ & _ & ->)|(room & Hroom & Hfresh & ->)]];
      simpl; [done|done|].
    apply registryTrimmed_insert; [|done].
    intros p Hp. simpl in Hp. apply elem_of_app in Hp as [Hp|Hp].
    + by apply (Hrooms roomId room).
    + apply list_elem_of_singleton in Hp. subst p. simpl. apply Hidem.
  - unfold removePlayer, getRoom.
    destruct (rooms !! roomId) as [room|] eqn:Hroom; simpl; [|done].
    apply registryTrimmed_insert; [|done].
    intros p Hp. simpl in Hp. apply list_elem_of_filter in Hp as [_ Hp].
    by apply (Hrooms roomId room).
  - intros id' room' H. apply lookup_delete_Some in H as [_ H].
    by apply (Hrooms id' room').
Qed.

Lemma registryTrimmed_runOps ops rooms :
  trimIdempotent → registryTrimmed rooms → registryTrimmed (runOps ops rooms).
Proof.
  intros Hidem. revert rooms.
  induction ops as [|op ops IH]; intros rooms Hrooms; [done|].
  simpl. by apply IH, registryTrimmed_applyOp.
Qed.

(** In a registry whose names are stored trimmed, a name that matches a
    member's up to letter case is refused. *)
Lemma addPlayer_case_variant roomId playerName uuid now rooms room p :
  trimCommutesWithToLowerCase →
  registryTrimmed rooms →
  rooms !! roomId = Some room →
  p ∈ Room.players room →
  toLowerCase playerName = toLowerCase (Player.name p) →
  addPlayer roomId playerName uuid now rooms = (AddError NAME_TAKEN, rooms).
Proof.
  intros Hcomm Htrim Hroom Hp Heq.
  apply (addPlayer_taken _ _ _ _ _ room Hroom).
  apply list_elem_of_fmap. exists p. split; [|done].
  rewrite <- Hcomm, Heq, Hcomm. f_equal.
  by apply (Htrim roomId room).
Qed.

End Invariants.

(** ** Properties of the store *)

Section StoreProperties.

Context `{builtins : !JsStrings}.

Implicit Types (rooms : Rooms) (room : Room.t) (p : Player.t).

(** C1. Starting from a registry in which no room has two members whose
    names are equal up to letter case, every sequence of store operations
    ([addPlayer] and [removePlayer], and also [createRoom] and [deleteRoom])
    leads to a registry in which, again, no room has two such members. *)
Theorem registryUnique_runOps (ops : list StoreOp) rooms :
  registryUnique rooms → registryUnique (runOps ops rooms).
Proof.
  revert rooms. induction ops as [|op ops IH]; intros rooms H; [done|].
  simpl. by apply IH, registryUnique_applyOp.
Qed.

(** C2. When the room exists and no member's name equals the trimmed input
    up to letter case, [addPlayer] succeeds: the player it creates carries
    the trimmed input as its name, and the room's member sequence is the
    previous one with that player appended at the end. *)
Theorem addPlayer_appends roomId playerName uuid now rooms room :
  rooms !! roomId = Some room →
  (∀ p, p ∈ Room.players room →
        toLowerCase (Player.name p) ≠ toLowerCase (trim playerName)) →
  ∃ room' player,
    addPlayer roomId playerName uuid now rooms
    = (AddOk room' player, <[roomId := room']> rooms)
    ∧ Player.name player = trim playerName
    ∧ Player.id player = uuid
    ∧ Room.players room' = Room.players room ++ [player]
    ∧ members roomId (addPlayer roomId playerName uuid now rooms).2
      = Some (Room.players room ++ [player]).
Proof.
  intros Hroom Hfresh.
  assert (toLowerCase (trim playerName) ∉ lowerNames (Room.players room))
    as Hout.
  { intros Hin. apply list_elem_of_fmap in Hin as (p & Heq & Hp).
    by apply (Hfresh p Hp). }
  rewrite (addPlayer_fresh _ _ uuid now _ _ Hroom Hout).
  eexists _, _. split; [done|]. repeat split.
  unfold members. simpl. by rewrite lookup_insert_eq.
Qed.

(** C3. In a registry built by the store's own operations, a join under a
    name that differs only in letter case from the name of a member of the
    room (the two are equal under [toLowerCase], the comparison of the
    code) is refused with [NAME_TAKEN], and the registry is left as it
    was.  Two facts about the built-ins are assumed: [trim] is idempotent
    and commutes with [toLowerCase]. *)
Theorem addPlayer_name_taken (ops : list StoreOp) roomId playerName uuid now
    room p :
  trimIdempotent → trimCommutesWithToLowerCase →
  runOps ops ∅ !! roomId = Some room →
  p ∈ Room.players room →
  toLowerCase playerName = toLowerCase (Player.name p) →
  addPlayer roomId playerName uuid now (runOps ops ∅)
  = (AddError NAME_TAKEN, runOps ops ∅).
Proof.
  intros Hidem Hcomm Hroom Hp Heq.
  apply (addPlayer_case_variant _ _ _ _ _ room p); try done.
  by apply registryTrimmed_runOps, registryTrimmed_empty.
Qed.

(** C4. [removePlayer] returns [true] exactly when the room exists and one
    of its members has the given id, which is exactly when the member
    sequence of the room changes; the new sequence is the old one without
    the members of that id.  When it returns [false], as it does for an
    unknown room and for an id that no member has, the registry is
    unchanged.  A second call with the same arguments returns [false] and
    changes nothing. *)
Theorem removePlayer_spec roomId playerId rooms :
  ((removePlayer roomId playerId rooms).1 = true
   ↔ ∃ room p, rooms !! roomId = Some room
               ∧ p ∈ Room.players room ∧ Player.id p = playerId)
  ∧ ((removePlayer roomId playerId rooms).1 = true
     ↔ members roomId (removePlayer roomId playerId rooms).2
       ≠ members roomId rooms)
  ∧ members roomId (removePlayer roomId playerId rooms).2
    = filter (fun p => Player.id p ≠ playerId) <$> members roomId rooms
  ∧ ((removePlayer roomId playerId rooms).1 = false
     → (removePlayer roomId playerId rooms).2 = rooms)
  ∧ (rooms !! roomId = None → removePlayer roomId playerId rooms = (false, rooms))
  ∧ removePlayer roomId playerId (removePlayer roomId playerId rooms).2
    = (false, (removePlayer roomId playerId rooms).2).
Proof.
  split; [apply removePlayer_true|].
  split.
  { destruct ((removePlayer roomId playerId rooms).1) eqn:Hb.
    - split; [intros _|done].
      apply removePlayer_true in Hb as (room & p & Hroom & Hp & Hid).
      rewrite members_removePlayer. unfold members. rewrite Hroom. simpl.
      intros Heq. injection Heq as Heq.
      rewrite <- Heq in Hp. by apply list_elem_of_filter in Hp as [Hp _].
    - split; [done|]. intros Hne. exfalso. apply Hne.
      by rewrite (removePlayer_false_same _ _ _ Hb). }
  split; [apply members_removePlayer|].
  split; [apply removePlayer_false_same|].
  split; [apply removePlayer_not_found|].
  apply removePlayer_again.
Qed.

End StoreProperties.

(** Runs on ASCII text. *)

Section StorePropertiesRuns.

#[local] Existing Instance asciiStrings.

Lemma registryUnique_runOps_witness :
  registryUnique ∅
  ∧ registryUnique
      (runOps
         (tableAOps ++
          [OpAddPlayer "room-a" " alice " "player-2" "t2";
           OpAddPlayer "room-a" "Bob" "player-3" "t3";
           OpRemovePlayer "room-a" "player-1";
           OpAddPlayer "room-a" "ALICE" "player-4" "t4"]) ∅).
Proof.
  split; [apply registryUnique_empty|].
  apply registryUnique_runOps, registryUnique_empty.
Defined.

Lemma addPlayer_appends_witness :
  ∃ room' player,
    addPlayer "room-a" "  Bob " "player-2" "t2" roomsA
    = (AddOk room' player, <[ "room-a" := room']> roomsA)
    ∧ Player.name player = trim "  Bob "
    ∧ Player.id player = "player-2"
    ∧ Room.players room' = Room.players tableA ++ [player]
    ∧ members "room-a" (addPlayer "room-a" "  Bob " "player-2" "t2" roomsA).2
      = Some (Room.players tableA ++ [player]).
Proof.
  apply (addPlayer_appends "room-a" "  Bob " "player-2" "t2" roomsA tableA).
  - reflexivity.
  - intros p Hp. apply list_elem_of_singleton in Hp. subst p. discriminate.
Defined.

Lemma addPlayer_name_taken_witness :
  addPlayer "room-a" "alice" "player-2" "t2" (runOps tableAOps ∅)
  = (AddError NAME_TAKEN, runOps tableAOps ∅)
  ∧ members "room-a" (runOps tableAOps ∅) = Some [alice].
Proof.
  split; [|reflexivity].
  apply (addPlayer_name_taken tableAOps "room-a" "alice" "player-2" "t2"
           tableA alice).
  - apply asciiStrings_trimIdempotent.
  - apply asciiStrings_trimCommutes.
  - reflexivity.
  - apply list_elem_of_singleton. reflexivity.
  - reflexivity.
Defined.

End StorePropertiesRuns.

(** ** The gateway: what each handler does *)

Section GatewayFacts.

Context `{builtins : !JsStrings}.

Implicit Types (rooms : Rooms) (room : Room.t) (socket : Socket.t).

Lemma binding_Some socket r p :
  binding socket = Some (r, p)
  ↔ roomId (Socket.data socket) = Some r ∧ playerId (Socket.data socket) = Some p
    ∧ r ≠ "" ∧ p ≠ "".
Proof.
  unfold binding.
  destruct (roomId (Socket.data socket)) as [r'|];
    destruct (playerId (Socket.data socket)) as [p'|];
    try (split; [done|by intros (? & ? & _)]).
  destruct (String.eqb_spec r' ""), (String.eqb_spec p' ""); simpl;
    split; try done; try (intros (? & ? & ? & ?); congruence).
  intros [= <- <-]. done.
Qed.

(** The guard of the leave and disconnect handlers. *)
Lemma guard_binding socket :
  missing (roomId (Socket.data socket)) || missing (playerId (Socket.data socket))
  = bool_decide (binding socket = None).
Proof.
  unfold binding, missing.
  destruct (roomId (Socket.data socket)) as [r|];
    destruct (playerId (Socket.data socket)) as [p|]; try done.
  - by destruct (r =? ""), (p =? "").
  - by destruct (r =? "").
Qed.

Lemma listPlayers_members r rooms :
  playersOf (listPlayers r rooms) = members r rooms.
Proof. unfold listPlayers, members, getRoom. by destruct (rooms !! r). Qed.

Lemma noError_members r rooms :
  noError (listPlayers r rooms) = bool_decide (is_Some (members r rooms)).
Proof.
  unfold listPlayers, members, getRoom.
  by destruct (rooms !! r).
Qed.

Lemma snapshot_emitted r rooms :
  (if noError (listPlayers r rooms)
   then [RoomEmit r (MsgRoomPlayers r (playersOf (listPlayers r rooms)))]
   else [])
  = snapshotAfter r rooms.
Proof.
  rewrite noError_members, listPlayers_members. unfold snapshotAfter.
  by destruct (members r rooms).
Qed.

Lemma onRoomLeave_bound socket rooms r p :
  binding socket = Some (r, p) →
  onRoomLeave socket rooms
  = {| socket' :=
         Socket.withData {| roomId := None; playerId := None |}
           (Socket.leave r socket);
       rooms' := (removePlayer r p rooms).2;
       emitted :=
         snapshotAfter r (removePlayer r p rooms).2
         ++ [SocketEmit (Socket.id socket) (MsgRoomLeft r)] |}.
Proof.
  intros Hb. unfold onRoomLeave.
  rewrite guard_binding, Hb. simpl.
  apply binding_Some in Hb as (-> & -> & _). simpl.
  destruct (removePlayer r p rooms) as [b rooms1]. simpl.
  by rewrite snapshot_emitted.
Qed.

Lemma onRoomLeave_idle socket rooms :
  binding socket = None →
  onRoomLeave socket rooms
  = {| socket' := socket; rooms' := rooms; emitted := [] |}.
Proof.
  intros Hb. unfold onRoomLeave. by rewrite guard_binding, Hb.
Qed.

Lemma onDisconnect_bound socket rooms r p :
  binding socket = Some (r, p) →
  onDisconnect socket rooms
  = {| socket' := socket;
       rooms' := (removePlayer r p rooms).2;
       emitted := snapshotAfter r (removePlayer r p rooms).2 |}.
Proof.
  intros Hb. unfold onDisconnect.
  rewrite guard_binding, Hb. simpl.
  apply binding_Some in Hb as (-> & -> & _). simpl.
  destruct (removePlayer r p rooms) as [b rooms1]. simpl.
  by rewrite snapshot_emitted.
Qed.

Lemma onDisconnect_idle socket rooms :
  binding socket = None →
  onDisconnect socket rooms
  = {| socket' := socket; rooms' := rooms; emitted := [] |}.
Proof.
  intros Hb. unfold onDisconnect. by rewrite guard_binding, Hb.
Qed.

Lemma onRoomJoin_cases payload uuid now socket rooms :
  (∃ error details,
      onRoomJoin payload uuid now socket rooms
      = refusedOutcome error details socket rooms)
  ∨ (∃ r n room,
        payload = Some {| pRoomId := JsStr r; pPlayerName := JsStr n |}
        ∧ r ≠ "" ∧ (2 ≤ jsLength (trim n))%nat
        ∧ rooms !! r = Some room
        ∧ (toLowerCase (trim n) ∉ lowerNames (Room.players room))
        ∧ onRoomJoin payload uuid now socket rooms
          = joinedOutcome r n uuid now socket rooms room).
Proof.
  unfold onRoomJoin, refusedOutcome.
  destruct payload as [[rid pn]|]; simpl; [|by left; eexists _, _].
  destruct rid as [| |b|z|r|]; simpl; try (by left; eexists _, _).
  - destruct b; simpl; by left; eexists _, _.
  - rewrite orb_true_r. by left; eexists _, _.
  - destruct (String.eqb_spec r "") as [->|Hr]; simpl;
      [by left; eexists _, _|].
    destruct pn as [| |b|z|n|]; simpl; try (by left; eexists _, _).
    + destruct b; simpl; by left; eexists _, _.
    + rewrite orb_true_r. by left; eexists _, _.
    + destruct (String.eqb_spec n "") as [->|Hn]; simpl;
        [by left; eexists _, _|].
      destruct (Nat.ltb_spec (jsLength (trim n)) 2) as [Hlt|Hge];
        [by left; eexists _, _|].
      destruct (addPlayer_cases r n uuid now rooms)
        as [[_ ->]|[(room & _ & _ & ->)|(room & Hroom & Hfresh & ->)]];
        [by left; eexists _, _|by left; eexists _, _|].
      right. exists r, n, room. repeat (split; [done|]).
      unfold joinedOutcome, listPlayers, getRoom.
      by rewrite lookup_insert_eq.
Qed.

Lemma onRoomJoin_admitted r n uuid now socket rooms room :
  r ≠ "" → n ≠ "" → (2 ≤ jsLength (trim n))%nat →
  rooms !! r = Some room →
  toLowerCase (trim n) ∉ lowerNames (Room.players room) →
  onRoomJoin (Some {| pRoomId := JsStr r; pPlayerName := JsStr n |})
    uuid now socket rooms
  = joinedOutcome r n uuid now socket rooms room.
Proof.
  intros Hr Hn Hlen Hroom Hfresh.
  unfold onRoomJoin, joinedOutcome. simpl.
  destruct (String.eqb_spec r "") as [|_]; [done|].
  destruct (String.eqb_spec n "") as [|_]; [done|].
  destruct (Nat.ltb_spec (jsLength (trim n)) 2) as [|_]; [lia|].
  simpl. rewrite (addPlayer_fresh _ _ uuid now _ _ Hroom Hfresh).
  unfold listPlayers, getRoom. by rewrite lookup_insert_eq.
Qed.

(** The handlers write to the registry through the store only: they leave
    it as it was or as one store operation leaves it. *)
Lemma handlers_run_store_ops payload uuid now socket rooms (o : Outcome) :
  o ∈ [onRoomJoin payload uuid now socket rooms;
       onRoomLeave socket rooms; onDisconnect socket rooms] →
  rooms' o = rooms ∨ ∃ op, rooms' o = applyOp op rooms.
Proof.
  intros Ho.
  apply elem_of_cons in Ho as [->|Ho]; [|apply elem_of_cons in Ho as [->|Ho]];
    [| |apply list_elem_of_singleton in Ho as ->].
  - destruct (onRoomJoin_cases payload uuid now socket rooms)
      as [(error & details & ->)
         |(r & n & room & _ & _ & _ & Hroom & Hfresh & ->)].
    + by left.
    + right. exists (OpAddPlayer r n uuid now). simpl.
      by rewrite (addPlayer_fresh _ _ uuid now _ _ Hroom Hfresh).
  - destruct (binding socket) as [[r p]|] eqn:Hb.
    + rewrite (onRoomLeave_bound _ _ _ _ Hb).
      right. by exists (OpRemovePlayer r p).
    + rewrite (onRoomLeave_idle _ _ Hb). by left.
  - destruct (binding socket) as [[r p]|] eqn:Hb.
    + rewrite (onDisconnect_bound _ _ _ _ Hb).
      right. by exists (OpRemovePlayer r p).
    + rewrite (onDisconnect_idle _ _ Hb). by left.
Qed.

(** So the handlers keep the names of every room unique up to letter
    case. *)
Lemma handlers_keep_unique payload uuid now socket rooms (o : Outcome) :
  o ∈ [onRoomJoin payload uuid now socket rooms;
       onRoomLeave socket rooms; onDisconnect socket rooms] →
  registryUnique rooms → registryUnique (rooms' o).
Proof.
  intros Ho Hrooms.
  destruct (handlers_run_store_ops _ _ _ _ _ _ Ho) as [->|[op ->]]; [done|].
  by apply registryUnique_applyOp.
Qed.

End GatewayFacts.

(** ** Properties of the gateway *)

Section GatewayProperties.

Context `{builtins : !JsStrings}.

Implicit Types (rooms : Rooms) (room : Room.t) (socket : Socket.t).

(** C5. Whatever the join, leave and disconnect handlers send to the group
    of a room is a [room:players] event for that room carrying the room's
    member sequence as it stands in the registry when the handler is done.
    A join that succeeds sends it, and the sequence is the previous one
    with the new player last; a leave or a disconnect of a bound connection
    whose room exists sends it, and the sequence is the previous one
    without the leaving player, in the same order.  And a join does
    succeed, with [room:joined] followed by that broadcast, whenever its
    payload names an existing room and a name that passes the handler's
    checks and is not taken in the room. *)
Theorem snapshot_is_member_list payload uuid now socket rooms :
  let oj := onRoomJoin payload uuid now socket rooms in
  let ol := onRoomLeave socket rooms in
  let od := onDisconnect socket rooms in
  (∀ o, o ∈ [oj; ol; od] → ∀ r m, RoomEmit r m ∈ emitted o →
     ∃ players, members r (rooms' o) = Some players
                ∧ m = MsgRoomPlayers r (Some players))
  ∧ (∀ r player,
       SocketEmit (Socket.id socket) (MsgRoomJoined r player) ∈ emitted oj →
       ∃ before,
         members r rooms = Some before
         ∧ members r (rooms' oj) = Some (before ++ [player])
         ∧ emitted oj
           = [SocketEmit (Socket.id socket) (MsgRoomJoined r player);
              RoomEmit r (MsgRoomPlayers r (Some (before ++ [player])))])
  ∧ (∀ r p before,
       binding socket = Some (r, p) → members r rooms = Some before →
       let after := filter (fun q => Player.id q ≠ p) before in
       members r (rooms' ol) = Some after
       ∧ emitted ol
         = [RoomEmit r (MsgRoomPlayers r (Some after));
            SocketEmit (Socket.id socket) (MsgRoomLeft r)]
       ∧ members r (rooms' od) = Some after
       ∧ emitted od = [RoomEmit r (MsgRoomPlayers r (Some after))])
  ∧ (∀ r n room,
       payload = Some {| pRoomId := JsStr r; pPlayerName := JsStr n |} →
       r ≠ "" → n ≠ "" → (2 ≤ jsLength (trim n))%nat →
       rooms !! r = Some room →
       toLowerCase (trim n) ∉ lowerNames (Room.players room) →
       let player := Player.mk uuid (trim n) now in
       members r (rooms' oj) = Some (Room.players room ++ [player])
       ∧ emitted oj
         = [SocketEmit (Socket.id socket) (MsgRoomJoined r player);
            RoomEmit r
              (MsgRoomPlayers r (Some (Room.players room ++ [player])))]).
Proof.
  intros oj ol od.
  assert (∀ r rooms1 r' m,
            RoomEmit r' m ∈ snapshotAfter r rooms1 →
            ∃ players, members r' rooms1 = Some players
                       ∧ m = MsgRoomPlayers r' (Some players)) as Hsnap.
  { intros r rooms1 r' m. unfold snapshotAfter.
    destruct (members r rooms1) as [ps|] eqn:Hm.
    - intros [= -> ->]%list_elem_of_singleton. eauto.
    - by intros ?%elem_of_nil. }
  split; [|split; [|split]].
  - intros o Ho r m Hin.
    apply elem_of_cons in Ho as [->|Ho]; [|apply elem_of_cons in Ho as [->|Ho]];
      [| |apply list_elem_of_singleton in Ho as ->].
    + subst oj.
      destruct (onRoomJoin_cases payload uuid now socket rooms)
        as [(error & details & Heq)|(r0 & n & room & _ & _ & _ & Hroom & _ & Heq)];
        rewrite Heq in Hin |- *; simpl in *.
      * by apply list_elem_of_singleton in Hin.
      * apply elem_of_cons in Hin as [Hin|Hin]; [done|].
        apply list_elem_of_singleton in Hin as [= -> ->].
        eexists. split; [|done].
        unfold members. by rewrite lookup_insert_eq.
    + subst ol. destruct (binding socket) as [[r0 p0]|] eqn:Hb.
      * rewrite (onRoomLeave_bound _ _ _ _ Hb) in Hin |- *. simpl in *.
        apply elem_of_app in Hin as [Hin|Hin]; [by eapply Hsnap|].
        by apply list_elem_of_singleton in Hin.
      * rewrite (onRoomLeave_idle _ _ Hb) in Hin. by apply elem_of_nil in Hin.
    + subst od. destruct (binding socket) as [[r0 p0]|] eqn:Hb.
      * rewrite (onDisconnect_bound _ _ _ _ Hb) in Hin |- *. simpl in *.
        by eapply Hsnap.
      * rewrite (onDisconnect_idle _ _ Hb) in Hin. by apply elem_of_nil in Hin.
  - intros r player Hin. subst oj.
    destruct (onRoomJoin_cases payload uuid now socket rooms)
      as [(error & details & Heq)|(r0 & n & room & _ & _ & _ & Hroom & _ & Heq)];
      rewrite Heq in Hin |- *; simpl in *.
    + by apply list_elem_of_singleton in Hin.
    + apply elem_of_cons in Hin as [[= <- <-]|Hin];
        [|by apply list_elem_of_singleton in Hin].
      exists (Room.players room). unfold members.
      by rewrite Hroom, lookup_insert_eq.
  - intros r p before Hb Hbefore after. subst ol od.
    rewrite (onRoomLeave_bound _ _ _ _ Hb), (onDisconnect_bound _ _ _ _ Hb).
    simpl. unfold snapshotAfter.
    by rewrite members_removePlayer, Hbefore.
  - intros r n room -> Hr Hn Hlen Hroom Hfresh player. subst oj.
    rewrite (onRoomJoin_admitted _ _ uuid now socket _ _ Hr Hn Hlen Hroom Hfresh).
    unfold joinedOutcome, members. simpl. by rewrite lookup_insert_eq.
Qed.

(** C6. For a bound connection, the disconnect handler leaves the registry
    exactly as the leave handler would; the events of the leave are the
    events of the disconnect followed by the private [room:left], and the
    disconnect sends nothing to the connection itself. *)
Theorem disconnect_as_leave socket rooms r p :
  binding socket = Some (r, p) →
  rooms' (onDisconnect socket rooms) = rooms' (onRoomLeave socket rooms)
  ∧ members r (rooms' (onDisconnect socket rooms))
    = filter (fun q => Player.id q ≠ p) <$> members r rooms
  ∧ emitted (onRoomLeave socket rooms)
    = emitted (onDisconnect socket rooms)
      ++ [SocketEmit (Socket.id socket) (MsgRoomLeft r)]
  ∧ (∀ sid m, SocketEmit sid m ∉ emitted (onDisconnect socket rooms)).
Proof.
  intros Hb.
  rewrite (onRoomLeave_bound _ _ _ _ Hb), (onDisconnect_bound _ _ _ _ Hb).
  simpl. repeat split; [apply members_removePlayer|].
  intros sid m. unfold snapshotAfter.
  destruct (members r (removePlayer r p rooms).2).
  - by intros ?%list_elem_of_singleton.
  - by intros ?%elem_of_nil.
Qed.

(** C10. A leave of a bound connection always ends with the private
    [room:left] for the room of the binding, after the broadcast when the
    room still exists; when the room is gone, [removePlayer] returns
    [false], nothing is broadcast and [room:left] is the only event.  A
    leave of a connection without a binding emits nothing and changes
    nothing. *)
Theorem leave_confirmation socket rooms :
  let o := onRoomLeave socket rooms in
  match binding socket with
  | Some (r, p) =>
      rooms' o = (removePlayer r p rooms).2
      ∧ emitted o
        = snapshotAfter r (rooms' o)
          ++ [SocketEmit (Socket.id socket) (MsgRoomLeft r)]
      ∧ (rooms !! r = None →
         removePlayer r p rooms = (false, rooms)
         ∧ emitted o = [SocketEmit (Socket.id socket) (MsgRoomLeft r)])
  | None =>
      o = {| socket' := socket; rooms' := rooms; emitted := [] |}
  end.
Proof.
  intros o. subst o. destruct (binding socket) as [[r p]|] eqn:Hb.
  - rewrite (onRoomLeave_bound _ _ _ _ Hb). simpl.
    split; [done|]. split; [done|]. intros Hnone.
    rewrite (removePlayer_not_found _ _ _ Hnone). split; [done|].
    unfold snapshotAfter, members. simpl. by rewrite Hnone.
  - by apply onRoomLeave_idle.
Qed.

End GatewayProperties.

(** Runs on ASCII text. *)

Section GatewayPropertiesRuns.

#[local] Existing Instance asciiStrings.

Lemma snapshot_is_member_list_witness :
  emitted secondJoin
  = [SocketEmit "socket-1"
       (MsgRoomJoined "room-b" (Player.mk "player-2" "Alice" "t3"));
     RoomEmit "room-b"
       (MsgRoomPlayers "room-b" (Some [Player.mk "player-2" "Alice" "t3"]))]
  ∧ members "room-b" (rooms' secondJoin)
    = Some [Player.mk "player-2" "Alice" "t3"]
  ∧ emitted (onRoomLeave aliceSocket roomsAB)
    = [RoomEmit "room-a" (MsgRoomPlayers "room-a" (Some []));
       SocketEmit "socket-1" (MsgRoomLeft "room-a")]
  ∧ members "room-a" (rooms' (onRoomLeave aliceSocket roomsAB)) = Some []
  ∧ emitted (onDisconnect aliceSocket roomsAB)
    = [RoomEmit "room-a" (MsgRoomPlayers "room-a" (Some []))].
Proof.
  destruct (snapshot_is_member_list joinTableB "player-2" "t3" aliceSocket
              roomsAB) as (_ & _ & Hleave & Hjoin).
  destruct (Hjoin "room-b" "Alice" (Room.mk "room-b" "Table B" [] "t2"))
    as [Hmembers Hemitted].
  - reflexivity.
  - discriminate.
  - discriminate.
  - simpl. lia.
  - reflexivity.
  - apply not_elem_of_nil.
  - destruct (Hleave "room-a" "player-1" [alice]) as (Hm1 & He1 & Hm2 & He2).
    + reflexivity.
    + reflexivity.
    + repeat split; assumption.
Defined.

Lemma disconnect_as_leave_witness :
  rooms' (onDisconnect aliceSocket roomsAB) = rooms' (onRoomLeave aliceSocket roomsAB)
  ∧ members "room-a" (rooms' (onDisconnect aliceSocket roomsAB))
    = filter (fun q => Player.id q ≠ "player-1") <$> members "room-a" roomsAB
  ∧ emitted (onRoomLeave aliceSocket roomsAB)
    = emitted (onDisconnect aliceSocket roomsAB)
      ++ [SocketEmit (Socket.id aliceSocket) (MsgRoomLeft "room-a")]
  ∧ (∀ sid m, SocketEmit sid m ∉ emitted (onDisconnect aliceSocket roomsAB)).
Proof.
  apply (disconnect_as_leave aliceSocket roomsAB "room-a" "player-1").
  reflexivity.
Defined.

End GatewayPropertiesRuns.

(** ** A second join on a bound connection *)

Section SecondJoin.

Context `{builtins : !JsStrings}.

Implicit Types (rooms : Rooms) (room : Room.t) (socket : Socket.t).

(** C9, amended. When a connection bound to a room joins a different room
    and is admitted, the old room's member sequence is untouched and the
    connection's binding is overwritten with the new room and the new
    player.  The connection's disconnect (and likewise its leave) then
    removes the new player from the new room; the old room's member
    sequence is still untouched, so the stale participant stays. *)
Theorem second_join_keeps_orphan socket rooms r1 p1 r2 n uuid now player :
  binding socket = Some (r1, p1) →
  r2 ≠ r1 →
  uuid ≠ "" →
  let o1 :=
    onRoomJoin (Some {| pRoomId := JsStr r2; pPlayerName := JsStr n |})
      uuid now socket rooms in
  SocketEmit (Socket.id socket) (MsgRoomJoined r2 player) ∈ emitted o1 →
  let o2 := onDisconnect (socket' o1) (rooms' o1) in
  let o2' := onRoomLeave (socket' o1) (rooms' o1) in
  members r1 (rooms' o1) = members r1 rooms
  ∧ binding (socket' o1) = Some (r2, uuid)
  ∧ Player.id player = uuid
  ∧ members r1 (rooms' o2) = members r1 rooms
  ∧ members r2 (rooms' o2)
    = filter (fun q => Player.id q ≠ uuid) <$> members r2 (rooms' o1)
  ∧ rooms' o2' = rooms' o2.
Proof.
  intros Hb Hne Huuid o1 Hjoined o2 o2'. subst o2 o2' o1.
  destruct (onRoomJoin_cases
              (Some {| pRoomId := JsStr r2; pPlayerName := JsStr n |})
              uuid now socket rooms)
    as [(error & details & Heq)
       |(r & n' & room & [= <- <-] & Hr2 & _ & Hroom & _ & Heq)];
    rewrite Heq in Hjoined |- *; simpl in *.
  { by apply list_elem_of_singleton in Hjoined. }
  apply elem_of_cons in Hjoined as [[= ->]|Hjoined];
    [|by apply list_elem_of_singleton in Hjoined].
  set (socket1 := Socket.withData _ _).
  set (rooms1 := <[r2 := _]> rooms).
  assert (binding socket1 = Some (r2, uuid)) as Hb1
    by (by apply binding_Some).
  assert (members r1 rooms1 = members r1 rooms) as Hold
    by (unfold members, rooms1; by rewrite lookup_insert_ne).
  rewrite (onDisconnect_bound _ _ _ _ Hb1), (onRoomLeave_bound _ _ _ _ Hb1).
  simpl. split; [done|]. split; [done|]. split; [done|].
  split; [by rewrite members_removePlayer_other|].
  split; [apply members_removePlayer|done].
Qed.

End SecondJoin.

(** Runs on ASCII text. *)

Section SecondJoinRuns.

#[local] Existing Instance asciiStrings.

(** The claim C9 fails on this run: Alice's connection, bound to "Table A",
    joins "Table B" and then disconnects; the disconnect empties "Table B"
    and Alice is still a member of "Table A". *)
Lemma second_join_orphan_survives_disconnect :
  binding aliceSocket = Some ("room-a", "player-1")
  ∧ members "room-a" roomsAB = Some [alice]
  ∧ binding (socket' secondJoin) = Some ("room-b", "player-2")
  ∧ members "room-b" (rooms' secondJoin)
    = Some [Player.mk "player-2" "Alice" "t3"]
  ∧ members "room-b" (rooms' disconnectAfterSecondJoin) = Some []
  ∧ members "room-a" (rooms' disconnectAfterSecondJoin) = Some [alice].
Proof. repeat (split; [reflexivity|]). reflexivity. Qed.

Lemma second_join_keeps_orphan_witness :
  members "room-a" (rooms' secondJoin) = members "room-a" roomsAB
  ∧ binding (socket' secondJoin) = Some ("room-b", "player-2")
  ∧ Player.id (Player.mk "player-2" "Alice" "t3") = "player-2"
  ∧ members "room-a" (rooms' disconnectAfterSecondJoin)
    = members "room-a" roomsAB
  ∧ members "room-b" (rooms' disconnectAfterSecondJoin)
    = filter (fun q => Player.id q ≠ "player-2")
        <$> members "room-b" (rooms' secondJoin)
  ∧ rooms' (onRoomLeave (socket' secondJoin) (rooms' secondJoin))
    = rooms' disconnectAfterSecondJoin.
Proof.
  apply (second_join_keeps_orphan aliceSocket roomsAB "room-a" "player-1"
           "room-b" "Alice" "player-2" "t3"
           (Player.mk "player-2" "Alice" "t3")).
  - reflexivity.
  - discriminate.
  - discriminate.
  - left.
Defined.

End SecondJoinRuns.

(** ** Where the names are validated *)

Section Validation.

Context `{builtins : !JsStrings}.

Implicit Types (rooms : Rooms) (room : Room.t) (socket : Socket.t).

(** C7, amended. The length of the trimmed name is checked by the callers
    of [addPlayer], before they call it: for a name whose trimmed [length]
    is less than two, whatever the room id, the [room:join]
    handler only emits a private [Bad Request] error and
    [POST /rooms/:id/join] only answers 400; neither changes the registry,
    and the connection is left as it was. *)
Theorem short_name_refused_by_callers (n : string) (rid : JsValue)
    (id uuid now : string) socket rooms :
  (jsLength (trim n) < 2)%nat →
  (∃ details,
      onRoomJoin (Some {| pRoomId := rid; pPlayerName := JsStr n |})
        uuid now socket rooms
      = refusedOutcome "Bad Request" (Some details) socket rooms)
  ∧ (∃ details,
        postRoomsJoin id (JsStr n) uuid now rooms
        = ({| status := 400; body := BodyError "Bad Request" (Some details) |},
           rooms)).
Proof.
  intros Hshort. apply Nat.ltb_lt in Hshort. split.
  - unfold onRoomJoin, refusedOutcome. simpl.
    destruct (negb (truthy rid) || negb (isString rid)); [by eexists|].
    rewrite Hshort, orb_true_r. by eexists.
  - unfold postRoomsJoin. simpl. rewrite Hshort, orb_true_r. by eexists.
Qed.

(** C8, amended. The name of a room is checked by [POST /rooms], before it
    calls [createRoom]: a name whose trimmed [length] is less than two, so
    every name that is empty after trimming, is answered 400 [Bad Request]
    and the registry is unchanged. *)
Theorem blank_name_refused_by_route (n : string) (uuid now : string) rooms :
  (jsLength (trim n) < 2)%nat →
  postRooms (JsStr n) uuid now rooms
  = ({| status := 400;
        body := BodyError "Bad Request"
                  (Some "Field 'name' is required (string, min 2 chars).") |},
     rooms).
Proof.
  intros Hshort. apply Nat.ltb_lt in Hshort.
  unfold postRooms. simpl. by rewrite Hshort, orb_true_r.
Qed.

End Validation.

(** Runs on ASCII text. *)

Section ValidationRuns.

#[local] Existing Instance asciiStrings.

(** The claim C7 fails on [addPlayer]: a name of one character after
    trimming is admitted and the player is added to the room.  (The input
    is ASCII text, on which the functions of [asciiStrings] return what the
    built-ins return.) *)
Lemma addPlayer_admits_short_name :
  jsLength (trim " B ") = 1%nat
  ∧ addPlayer "room-a" " B " "player-2" "t2" roomsA
    = (AddOk
         (Room.mk "room-a" "Table A" [alice; Player.mk "player-2" "B" "t2"] "t0")
         (Player.mk "player-2" "B" "t2"),
       <["room-a" :=
           Room.mk "room-a" "Table A" [alice; Player.mk "player-2" "B" "t2"] "t0"]>
         roomsA).
Proof. split; reflexivity. Qed.

Lemma short_name_refused_by_callers_witness :
  (∃ details,
      onRoomJoin (Some {| pRoomId := JsStr "room-a"; pPlayerName := JsStr " B " |})
        "player-2" "t2" idleSocket roomsA
      = refusedOutcome "Bad Request" (Some details) idleSocket roomsA)
  ∧ (∃ details,
        postRoomsJoin "room-a" (JsStr " B ") "player-2" "t2" roomsA
        = ({| status := 400; body := BodyError "Bad Request" (Some details) |},
           roomsA)).
Proof.
  apply (short_name_refused_by_callers " B " (JsStr "room-a") "room-a"
           "player-2" "t2" idleSocket roomsA).
  simpl. lia.
Defined.

(** The claim C8 fails on [createRoom]: a name that is empty after trimming
    creates a room, with the empty name.  (The input is ASCII text.) *)
Lemma createRoom_accepts_blank_name :
  trim "   " = ""
  ∧ createRoom "   " "room-x" "t0" ∅
    = (Room.mk "room-x" "" [] "t0",
       {["room-x" := Room.mk "room-x" "" [] "t0"]}).
Proof. split; reflexivity. Qed.

Lemma blank_name_refused_by_route_witness :
  trim "   " = ""
  ∧ postRooms (JsStr "   ") "room-x" "t0" roomsA
    = ({| status := 400;
          body := BodyError "Bad Request"
                    (Some "Field 'name' is required (string, min 2 chars).") |},
       roomsA).
Proof.
  split; [reflexivity|].
  apply (blank_name_refused_by_route "   " "room-x" "t0" roomsA).
  simpl. lia.
Defined.

End ValidationRuns.

(** ** More on the store: lookups, frames and round trips *)

Section StoreMore.

Context `{builtins : !JsStrings}.

Implicit Types (rooms : Rooms) (room : Room.t) (p : Player.t).

(** X1. A room made by [createRoom] is found under the id it was given, with
    the trimmed name and no player, also through [listPlayers]; the rooms
    under other ids are as they were. *)
Theorem createRoom_getRoom name uuid now rooms :
  getRoom uuid (createRoom name uuid now rooms).2
  = Some (createRoom name uuid now rooms).1
  ∧ Room.name (createRoom name uuid now rooms).1 = trim name
  ∧ listPlayers uuid (createRoom name uuid now rooms).2
    = ListOk (createRoom name uuid now rooms).1 []
  ∧ (∀ id, id ≠ uuid →
       getRoom id (createRoom name uuid now rooms).2 = getRoom id rooms).
Proof.
  unfold createRoom, listPlayers, getRoom. simpl.
  rewrite lookup_insert_eq. repeat split.
  intros id Hne. by rewrite lookup_insert_ne.
Qed.

(** X2. [deleteRoom] returns [true] exactly when the room existed; after it
    the room is gone and the other rooms are as they were; when it returns
    [false] the registry is unchanged, and a second call always returns
    [false]. *)
Theorem deleteRoom_spec id rooms :
  ((deleteRoom id rooms).1 = true ↔ is_Some (getRoom id rooms))
  ∧ getRoom id (deleteRoom id rooms).2 = None
  ∧ (∀ id', id' ≠ id →
       getRoom id' (deleteRoom id rooms).2 = getRoom id' rooms)
  ∧ ((deleteRoom id rooms).1 = false → (deleteRoom id rooms).2 = rooms)
  ∧ deleteRoom id (deleteRoom id rooms).2 = (false, (deleteRoom id rooms).2).
Proof.
  unfold deleteRoom, getRoom. simpl.
  split; [apply bool_decide_eq_true|].
  split; [apply lookup_delete_eq|].
  split; [intros id' Hne; by apply lookup_delete_ne|].
  split.
  - intros Hnone. apply bool_decide_eq_false in Hnone.
    apply delete_id. by apply eq_None_not_Some.
  - f_equal.
    + apply bool_decide_eq_false. rewrite lookup_delete_eq. by intros [? ?].
    + apply delete_id, lookup_delete_eq.
Qed.

(** X3. [addPlayer] never adds or removes a room and never touches a room
    other than the one it is given; a refusal leaves the whole registry as
    it was; in the room itself only the member sequence can change, and
    only by growing at its end. *)
Theorem addPlayer_frame roomId playerName uuid now rooms :
  dom (addPlayer roomId playerName uuid now rooms).2 = dom rooms
  ∧ (∀ id, id ≠ roomId →
       (addPlayer roomId playerName uuid now rooms).2 !! id = rooms !! id)
  ∧ (∀ e, (addPlayer roomId playerName uuid now rooms).1 = AddError e →
          (addPlayer roomId playerName uuid now rooms).2 = rooms)
  ∧ (∀ room',
       (addPlayer roomId playerName uuid now rooms).2 !! roomId = Some room' →
       ∃ room, rooms !! roomId = Some room
               ∧ Room.id room' = Room.id room
               ∧ Room.name room' = Room.name room
               ∧ Room.createdAt room' = Room.createdAt room
               ∧ Room.players room `prefix_of` Room.players room').
Proof.
  destruct (addPlayer_cases roomId playerName uuid now rooms)
    as [[Hnone ->]|[(room & Hroom & _ & ->)|(room & Hroom & _ & ->)]]; simpl.
  - repeat split; try done.
    intros room' Hroom'. congruence.
  - repeat split; try done.
    intros room' Hroom'. exists room. by simplify_eq.
  - split; [|split; [|split]].
    + by apply dom_insert_lookup_L.
    + intros id Hne. by rewrite lookup_insert_ne.
    + done.
    + intros room' Hroom'. rewrite lookup_insert_eq in Hroom'.
      injection Hroom' as <-. exists room. simpl.
      repeat split; try done. by apply prefix_app_r.
Qed.

(** X4. [removePlayer] never adds or removes a room and never touches a
    room other than the one it is given; in the room itself the id, the
    name and the creation time are kept, and a player stays exactly when
    its id is not the one removed. *)
Theorem removePlayer_frame roomId playerId rooms :
  dom (removePlayer roomId playerId rooms).2 = dom rooms
  ∧ (∀ id, id ≠ roomId →
       (removePlayer roomId playerId rooms).2 !! id = rooms !! id)
  ∧ (∀ room',
       (removePlayer roomId playerId rooms).2 !! roomId = Some room' →
       ∃ room, rooms !! roomId = Some room
               ∧ Room.id room' = Room.id room
               ∧ Room.name room' = Room.name room
               ∧ Room.createdAt room' = Room.createdAt room
               ∧ Room.players room' `sublist_of` Room.players room
               ∧ ∀ p, p ∈ Room.players room'
                      ↔ p ∈ Room.players room ∧ Player.id p ≠ playerId).
Proof.
  destruct (rooms !! roomId) as [room|] eqn:Hroom.
  - rewrite (removePlayer_found _ _ _ _ Hroom). simpl.
    split; [|split].
    + by apply dom_insert_lookup_L.
    + intros id Hne. by rewrite lookup_insert_ne.
    + intros room' Hroom'. rewrite lookup_insert_eq in Hroom'.
      injection Hroom' as <-. exists room. simpl.
      do 4 (split; [done|]). split; [apply sublist_filter|].
      intros p. rewrite list_elem_of_filter. tauto.
  - rewrite (removePlayer_not_found _ _ _ Hroom). simpl.
    repeat split; try done. intros room' Hroom'. congruence.
Qed.

(** X5. Removing the player that [addPlayer] has just added, by the id it
    was given, returns [true] and gives back the registry as it was before
    the join, provided no member of the room already carried that id. *)
Theorem addPlayer_removePlayer roomId playerName uuid now rooms room :
  rooms !! roomId = Some room →
  toLowerCase (trim playerName) ∉ lowerNames (Room.players room) →
  uuid ∉ playerIds room →
  removePlayer roomId uuid (addPlayer roomId playerName uuid now rooms).2
  = (true, rooms).
Proof.
  intros Hroom Hfresh Hid.
  rewrite (addPlayer_fresh _ _ uuid now _ _ Hroom Hfresh). simpl.
  rewrite (removePlayer_found _ _ _ _ (lookup_insert_eq _ _ _)). simpl.
  assert (filter (fun p => Player.id p ≠ uuid) (Room.players room)
          = Room.players room) as Hkeep.
  { apply filter_id_iff. intros p Hp Heq. apply Hid.
    apply list_elem_of_fmap. eauto. }
  rewrite filter_app, Hkeep, filter_cons, decide_False by (simpl; tauto).
  rewrite filter_nil, app_nil_r, length_app. simpl. f_equal.
  - apply negb_true_iff, Nat.eqb_neq. lia.
  - rewrite insert_insert_eq.
    replace (Room.withPlayers (Room.players room) _) with room
      by (by destruct room).
    by apply insert_id.
Qed.

Lemma registryKeyed_applyOp op rooms :
  registryKeyed rooms → registryKeyed (applyOp op rooms).
Proof.
  intros Hrooms k room'.
  destruct op as [name uuid now|roomId playerName uuid now|roomId playerId|id];
    simpl.
  - rewrite lookup_insert. case_decide; [|by apply Hrooms].
    intros [= <-]. by subst.
  - destruct (addPlayer_cases roomId playerName uuid now rooms)
      as [[_ ->]|[(room & _ & _ & ->)|(room & Hroom & _ & ->)]];
      simpl; [by apply Hrooms|by apply Hrooms|].
    rewrite lookup_insert. case_decide; [|by apply Hrooms].
    intros [= <-]. subst k. simpl. by apply Hrooms.
  - unfold removePlayer, getRoom.
    destruct (rooms !! roomId) as [room|] eqn:Hroom; simpl; [|by apply Hrooms].
    rewrite lookup_insert. case_decide; [|by apply Hrooms].
    intros [= <-]. subst k. simpl. by apply Hrooms.
  - intros H. apply lookup_delete_Some in H as [_ H]. by apply Hrooms.
Qed.

Lemma roomNameTrimmed_applyOp op rooms :
  trimIdempotent →
  (∀ k room, rooms !! k = Some room → trim (Room.name room) = Room.name room) →
  ∀ k room, applyOp op rooms !! k = Some room →
            trim (Room.name room) = Room.name room.
Proof.
  intros Hidem Hrooms k room'.
  destruct op as [name uuid now|roomId playerName uuid now|roomId playerId|id];
    simpl.
  - rewrite lookup_insert. case_decide; [|by apply Hrooms].
    intros [= <-]. simpl. apply Hidem.
  - destruct (addPlayer_cases roomId playerName uuid now rooms)
      as [[_ ->]|[(room & _ & _ & ->)|(room & Hroom & _ & ->)]];
      simpl; [by apply Hrooms|by apply Hrooms|].
    rewrite lookup_insert. case_decide; [|by apply Hrooms].
    intros [= <-]. simpl. by apply (Hrooms roomId).
  - unfold removePlayer, getRoom.
    destruct (rooms !! roomId) as [room|] eqn:Hroom; simpl; [|by apply Hrooms].
    rewrite lookup_insert. case_decide; [|by apply Hrooms].
    intros [= <-]. simpl. by apply (Hrooms roomId).
  - intros H. apply lookup_delete_Some in H as [_ H]. by apply (Hrooms k).
Qed.

(** X6. In every registry that the store's operations build from the empty
    one, each room is stored under its own id, its name is trimmed (it is
    what [trim] returns for it), and so is the name of each of its members.
    The fact assumed about the built-in is that [trim] is idempotent. *)
Theorem store_keeps_ids_and_trimmed_names (ops : list StoreOp) k room :
  trimIdempotent →
  runOps ops ∅ !! k = Some room →
  Room.id room = k
  ∧ trim (Room.name room) = Room.name room
  ∧ ∀ p, p ∈ Room.players room → trim (Player.name p) = Player.name p.
Proof.
  intros Hidem Hroom.
  assert (∀ rooms,
            registryKeyed rooms
            ∧ (∀ k room, rooms !! k = Some room →
                         trim (Room.name room) = Room.name room) →
            registryKeyed (runOps ops rooms)
            ∧ (∀ k room, runOps ops rooms !! k = Some room →
                         trim (Room.name room) = Room.name room)) as Hrun.
  { clear Hroom.
    induction ops as [|op ops IH]; intros rooms [Hk Hn]; [done|].
    simpl. apply IH. split.
    - by apply registryKeyed_applyOp.
    - by apply roomNameTrimmed_applyOp. }
  destruct (Hrun ∅) as [Hk Hn].
  { split; intros ? ? H; by rewrite lookup_empty in H. }
  split; [by apply Hk|]. split; [by apply (Hn k)|].
  by apply (registryTrimmed_runOps ops ∅ Hidem registryTrimmed_empty k room).
Qed.

(** X7. [listRooms] lists one summary per room of the registry and nothing
    else, each with the room's id, name, creation time and number of
    members. *)
Theorem listRooms_spec rooms :
  length (listRooms rooms) = size rooms
  ∧ ∀ s, s ∈ listRooms rooms
         ↔ ∃ k room, rooms !! k = Some room
                     ∧ s = {| sId := Room.id room; sName := Room.name room;
                              playersCount := length (Room.players room);
                              sCreatedAt := Room.createdAt room |}.
Proof.
  unfold listRooms. split.
  - by rewrite !length_fmap, length_map_to_list.
  - intros s. rewrite list_elem_of_fmap. split.
    + intros (room & -> & Hin).
      apply list_elem_of_fmap in Hin as ([k room'] & -> & Hin).
      apply elem_of_map_to_list in Hin. by exists k, room'.
    + intros (k & room & Hroom & ->). exists room. split; [done|].
      apply list_elem_of_fmap. exists (k, room). split; [done|].
      by apply elem_of_map_to_list.
Qed.

End StoreMore.

(** Runs on ASCII text. *)

Section StoreMoreRuns.

#[local] Existing Instance asciiStrings.

Lemma addPlayer_removePlayer_witness :
  removePlayer "room-a" "player-2"
    (addPlayer "room-a" " Bob " "player-2" "t2" roomsA).2
  = (true, roomsA).
Proof.
  apply (addPlayer_removePlayer "room-a" " Bob " "player-2" "t2" roomsA tableA).
  - reflexivity.
  - intros Hin. apply list_elem_of_singleton in Hin. discriminate.
  - intros Hin. apply list_elem_of_singleton in Hin. discriminate.
Defined.

Lemma store_keeps_ids_and_trimmed_names_witness :
  Room.id tableA = "room-a"
  ∧ trim (Room.name tableA) = Room.name tableA
  ∧ ∀ p, p ∈ Room.players tableA → trim (Player.name p) = Player.name p.
Proof.
  apply (store_keeps_ids_and_trimmed_names tableAOps "room-a" tableA).
  - apply asciiStrings_trimIdempotent.
  - reflexivity.
Defined.

End StoreMoreRuns.

(** ** The REST handlers *)

Section Routes.

Context `{builtins : !JsStrings}.

Implicit Types (rooms : Rooms) (room : Room.t) (socket : Socket.t).

(** The guard of the two [POST] handlers and of the join handler. *)
Lemma guard_validName (v : JsValue) :
  negb (truthy v) || negb (isString v)
  || (jsLength (trim (str v)) <? 2)%nat
  = negb (validName v).
Proof.
  unfold validName. rewrite !negb_andb. f_equal.
  by rewrite Nat.leb_antisym, negb_involutive.
Qed.

Lemma validName_str (v : JsValue) :
  validName v = true
  ↔ ∃ n, v = JsStr n ∧ n ≠ "" ∧ (2 ≤ jsLength (trim n))%nat.
Proof.
  unfold validName. split.
  - intros Hv. apply andb_true_iff in Hv as [Hv Hlen].
    apply andb_true_iff in Hv as [Htruthy Hstr].
    destruct v as [| |b|z|n|]; try done. exists n. split; [done|].
    split; [|by apply Nat.leb_le].
    simpl in Htruthy. apply negb_true_iff in Htruthy.
    by apply String.eqb_neq.
  - intros (n & -> & Hn & Hlen).
    cbn [truthy isString str].
    rewrite (proj2 (String.eqb_neq _ _) Hn).
    by rewrite (proj2 (Nat.leb_le _ _) Hlen).
Qed.

(** X8. [POST /rooms] answers 201 exactly for a name that is a non-empty
    string whose trimmed [length] is two at least, and 400 without touching the
    registry otherwise.  On 201 the room carries the trimmed name and no
    player, and [GET /rooms/:id] and [GET /rooms/:id/players] on the new id
    answer 200 with that room and with the empty list. *)
Theorem postRooms_spec (name : JsValue) uuid now rooms :
  let room := Room.mk uuid (trim (str name)) [] now in
  if validName name then
    postRooms name uuid now rooms
    = ({| status := 201; body := BodyRoom room |}, <[uuid := room]> rooms)
    ∧ getRoomById uuid (postRooms name uuid now rooms).2
      = {| code := 200; reply := ReplyRoom room |}
    ∧ getRoomPlayers uuid (postRooms name uuid now rooms).2
      = {| code := 200; reply := ReplyPlayers uuid [] |}
  else
    status (postRooms name uuid now rooms).1 = 400
    ∧ (postRooms name uuid now rooms).2 = rooms.
Proof.
  intros room. unfold postRooms. rewrite guard_validName.
  destruct (validName name); simpl; [|done].
  unfold getRoomById, getRoomPlayers, listPlayers, getRoom.
  by rewrite lookup_insert_eq.
Qed.

(** X9. [POST /rooms/:id/join] answers 400 for a name that is not a
    non-empty string whose trimmed [length] is two at least; otherwise 404
    when the room
    does not exist, 409 when the trimmed name is taken up to letter case,
    and 201 when it is free.  Only the 201 changes the registry: the new
    player, named by the trimmed input, is the last one that
    [GET /rooms/:id/players] then lists. *)
Theorem postRoomsJoin_spec id (playerName : JsValue) uuid now rooms :
  let r := postRoomsJoin id playerName uuid now rooms in
  let player := Player.mk uuid (trim (str playerName)) now in
  if validName playerName then
    match rooms !! id with
    | None => status r.1 = 404 ∧ r.2 = rooms
    | Some room =>
        if bool_decide (toLowerCase (trim (str playerName))
                          ∈ lowerNames (Room.players room))
        then status r.1 = 409 ∧ r.2 = rooms
        else
          r.1 = {| status := 201; body := BodyJoined (Room.id room) player |}
          ∧ members id r.2 = Some (Room.players room ++ [player])
          ∧ getRoomPlayers id r.2
            = {| code := 200;
                 reply := ReplyPlayers (Room.id room)
                            (Room.players room ++ [player]) |}
    end
  else status r.1 = 400 ∧ r.2 = rooms.
Proof.
  intros r player. subst r. unfold postRoomsJoin. rewrite guard_validName.
  destruct (validName playerName); simpl; [|done].
  destruct (rooms !! id) as [room|] eqn:Hroom.
  - case_bool_decide as Hin.
    + by rewrite (addPlayer_taken _ _ uuid now _ _ Hroom Hin).
    + rewrite (addPlayer_fresh _ _ uuid now _ _ Hroom Hin). simpl.
      unfold members, getRoomPlayers, listPlayers, getRoom.
      by rewrite lookup_insert_eq.
  - by rewrite (addPlayer_not_found _ _ uuid now _ Hroom).
Qed.

(** X10. The two ways in agree: for a non-empty room id, a [room:join] on a
    connection and a [POST /rooms/:id/join] with the same name leave the
    same registry, and the connection is told [room:joined] exactly when
    the request is answered 201. *)
Theorem join_paths_agree id (playerName : JsValue) uuid now socket rooms :
  id ≠ "" →
  let o :=
    onRoomJoin (Some {| pRoomId := JsStr id; pPlayerName := playerName |})
      uuid now socket rooms in
  let r := postRoomsJoin id playerName uuid now rooms in
  rooms' o = r.2
  ∧ ((∃ player, SocketEmit (Socket.id socket) (MsgRoomJoined id player)
                ∈ emitted o)
     ↔ status r.1 = 201).
Proof.
  intros Hid o r. subst o r. unfold onRoomJoin, postRoomsJoin. simpl.
  destruct (String.eqb_spec id "") as [|_]; [done|]. simpl.
  destruct (negb (truthy playerName) || negb (isString playerName)
            || (jsLength (trim (str playerName)) <? 2)%nat).
  { split; [done|]. simpl. split; [|done].
    by intros (player & ?%list_elem_of_singleton). }
  destruct (addPlayer_cases id (str playerName) uuid now rooms)
    as [[_ ->]|[(room & _ & _ & ->)|(room & Hroom & _ & ->)]]; simpl.
  - split; [done|]. split; [|done].
    by intros (player & ?%list_elem_of_singleton).
  - split; [done|]. split; [|done].
    by intros (player & ?%list_elem_of_singleton).
  - split; [done|]. split; [done|]. intros _. eexists. left.
Qed.

(** X11. [DELETE /rooms/:id] answers 204 when the room existed and 404,
    without touching the registry, when it did not.  After it the id is
    unknown to every handler: [GET /rooms/:id] and [GET /rooms/:id/players]
    answer 404, a join with a valid name answers 404, and a second delete
    answers 404. *)
Theorem deleteRoomById_spec id (playerName : JsValue) uuid now rooms :
  let d := deleteRoomById id rooms in
  (code d.1 = 204 ↔ is_Some (rooms !! id))
  ∧ (code d.1 = 404 ↔ rooms !! id = None)
  ∧ (code d.1 = 404 → d.2 = rooms)
  ∧ getRoomById id d.2 = {| code := 404; reply := ReplyError "Room not found" |}
  ∧ getRoomPlayers id d.2
    = {| code := 404; reply := ReplyError "Room not found" |}
  ∧ (validName playerName = true →
     status (postRoomsJoin id playerName uuid now d.2).1 = 404)
  ∧ code (deleteRoomById id d.2).1 = 404.
Proof.
  intros d. subst d. unfold deleteRoomById, deleteRoom.
  assert (∀ m : Rooms, (delete id m : Rooms) !! id = None) as Hgone
    by (intros m; apply lookup_delete_eq).
  destruct (rooms !! id) as [room|] eqn:Hroom.
  - rewrite bool_decide_eq_true_2 by eauto. simpl.
    split; [by eauto|]. split; [done|]. split; [done|].
    unfold getRoomById, getRoomPlayers, listPlayers, getRoom.
    rewrite !Hgone.
    split; [done|]. split; [done|]. split.
    + intros Hvalid. unfold postRoomsJoin.
      rewrite guard_validName, Hvalid. simpl.
      by rewrite (addPlayer_not_found _ _ uuid now _ (Hgone rooms)).
    + rewrite bool_decide_eq_false_2; [done|]. by intros [? ?].
  - rewrite bool_decide_eq_false_2 by (by intros [? ?]). simpl.
    rewrite (delete_id rooms id Hroom).
    split; [split; [done|by intros [? ?]]|]. split; [done|]. split; [done|].
    unfold getRoomById, getRoomPlayers, listPlayers, getRoom.
    rewrite !Hroom.
    split; [done|]. split; [done|]. split.
    + intros Hvalid. unfold postRoomsJoin.
      rewrite guard_validName, Hvalid. simpl.
      by rewrite (addPlayer_not_found _ _ uuid now _ Hroom).
    + rewrite bool_decide_eq_false_2; [done|]. by intros [? ?].
Qed.

End Routes.

(** Runs on ASCII text. *)

Section RoutesRuns.

#[local] Existing Instance asciiStrings.

Lemma join_paths_agree_witness :
  rooms' (onRoomJoin
            (Some {| pRoomId := JsStr "room-a"; pPlayerName := JsStr "Bob" |})
            "player-2" "t2" idleSocket roomsA)
  = (postRoomsJoin "room-a" (JsStr "Bob") "player-2" "t2" roomsA).2
  ∧ ((∃ player, SocketEmit (Socket.id idleSocket) (MsgRoomJoined "room-a" player)
                ∈ emitted
                    (onRoomJoin
                       (Some {| pRoomId := JsStr "room-a";
                                pPlayerName := JsStr "Bob" |})
                       "player-2" "t2" idleSocket roomsA))
     ↔ status (postRoomsJoin "room-a" (JsStr "Bob") "player-2" "t2" roomsA).1
       = 201).
Proof.
  apply (join_paths_agree "room-a" (JsStr "Bob") "player-2" "t2" idleSocket roomsA).
  discriminate.
Defined.

End RoutesRuns.

(** ** More on the gateway handlers *)

Section GatewayMore.

Context `{builtins : !JsStrings}.

Implicit Types (rooms : Rooms) (room : Room.t) (socket : Socket.t).

(** X12. The answers of the [room:join] handler, in the order it decides
    them: [roomId required] for a room id that is not a non-empty string;
    [playerName required] for a name that is not a non-empty string whose
    trimmed [length] is at least two; [Room not found] for an unknown room;
    [Name taken] for a name in use up to letter case.  Each of the four is
    one private [error] event and leaves the connection and the registry as
    they were (no room is created).  Otherwise the player, named by the
    trimmed input, is appended to the room; the connection joins the
    room's group and is bound to the room and the player; [room:joined] is
    emitted to it and then the room's new member list to the group. *)
Theorem onRoomJoin_spec payload uuid now socket rooms :
  let p := default noPayload payload in
  let r := str (pRoomId p) in
  let n := str (pPlayerName p) in
  let o := onRoomJoin payload uuid now socket rooms in
  let refused (error : string) (details : option string) :=
    o = {| socket' := socket; rooms' := rooms;
           emitted := [SocketEmit (Socket.id socket) (MsgError error details)] |} in
  if negb (truthy (pRoomId p) && isString (pRoomId p)) then
    refused "Bad Request" (Some "roomId required")
  else if negb (truthy (pPlayerName p) && isString (pPlayerName p)
                && (2 <=? jsLength (trim n))%nat) then
    refused "Bad Request" (Some "playerName required (min 2 chars)")
  else
    match rooms !! r with
    | None => refused "Room not found" None
    | Some room =>
        if bool_decide (toLowerCase (trim n) ∈ lowerNames (Room.players room))
        then refused "Name taken" None
        else
          let player := Player.mk uuid (trim n) now in
          members r (rooms' o) = Some (Room.players room ++ [player])
          ∧ (∀ k, k ≠ r → rooms' o !! k = rooms !! k)
          ∧ Socket.data (socket' o)
            = {| roomId := Some r; playerId := Some uuid |}
          ∧ Socket.groups (socket' o) = {[r]} ∪ Socket.groups socket
          ∧ Socket.id (socket' o) = Socket.id socket
          ∧ emitted o
            = [SocketEmit (Socket.id socket) (MsgRoomJoined r player);
               RoomEmit r
                 (MsgRoomPlayers r (Some (Room.players room ++ [player])))]
    end.
Proof.
  intros p r n o refused. subst refused o. unfold onRoomJoin. fold p.
  change (negb (truthy (pPlayerName p)) || negb (isString (pPlayerName p))
          || (jsLength (trim (str (pPlayerName p))) <? 2)%nat)
    with (negb (truthy (pPlayerName p)) || negb (isString (pPlayerName p))
          || (jsLength (trim n) <? 2)%nat).
  rewrite !negb_andb, Nat.leb_antisym, negb_involutive.
  destruct (negb (truthy (pRoomId p)) || negb (isString (pRoomId p)));
    [done|].
  destruct (negb (truthy (pPlayerName p)) || negb (isString (pPlayerName p))
            || (jsLength (trim n) <? 2)%nat); [done|].
  fold r n. destruct (rooms !! r) as [room|] eqn:Hroom.
  - case_bool_decide as Hin.
    + by rewrite (addPlayer_taken _ _ uuid now _ _ Hroom Hin).
    + rewrite (addPlayer_fresh _ _ uuid now _ _ Hroom Hin). simpl.
      unfold members, listPlayers, getRoom. rewrite lookup_insert_eq. simpl.
      split; [done|]. split; [|done].
      intros k Hk. by rewrite lookup_insert_ne.
  - by rewrite (addPlayer_not_found _ _ uuid now _ Hroom).
Qed.

(** X13. After a join that succeeds (the connection is told [room:joined]),
    the connection is in the room's group, its binding is the room and the
    new player's id, and that player is the last member of the room in the
    registry. *)
Theorem joined_connection_is_bound payload uuid now socket rooms r player :
  uuid ≠ "" →
  SocketEmit (Socket.id socket) (MsgRoomJoined r player)
    ∈ emitted (onRoomJoin payload uuid now socket rooms) →
  let o := onRoomJoin payload uuid now socket rooms in
  binding (socket' o) = Some (r, Player.id player)
  ∧ r ∈ Socket.groups (socket' o)
  ∧ Socket.id (socket' o) = Socket.id socket
  ∧ ∃ room', rooms' o !! r = Some room' ∧ last (Room.players room') = Some player.
Proof.
  intros Huuid Hin o. subst o.
  destruct (onRoomJoin_cases payload uuid now socket rooms)
    as [(error & details & Heq)|(r0 & n & room & _ & Hr & _ & Hroom & _ & Heq)];
    rewrite Heq in Hin |- *; simpl in *.
  { by apply list_elem_of_singleton in Hin. }
  apply elem_of_cons in Hin as [[= <- ->]|Hin];
    [|by apply list_elem_of_singleton in Hin].
  split; [by apply binding_Some|]. split; [set_solver|]. split; [done|].
  eexists. rewrite lookup_insert_eq. split; [done|]. simpl. apply last_snoc.
Qed.

(** X14. A join that succeeds followed by a leave is a round trip: for a
    connection with no binding that is not in the room's group, and an id
    that no member of the room carries, the leave gives back the connection
    and the registry as they were before the join, after broadcasting the
    room's previous member list and confirming with [room:left]. *)
Theorem join_then_leave r n uuid now socket rooms room :
  Socket.data socket = {| roomId := None; playerId := None |} →
  r ∉ Socket.groups socket →
  r ≠ "" → n ≠ "" → (2 ≤ jsLength (trim n))%nat → uuid ≠ "" →
  rooms !! r = Some room →
  toLowerCase (trim n) ∉ lowerNames (Room.players room) →
  uuid ∉ playerIds room →
  let o :=
    onRoomJoin (Some {| pRoomId := JsStr r; pPlayerName := JsStr n |})
      uuid now socket rooms in
  onRoomLeave (socket' o) (rooms' o)
  = {| socket' := socket; rooms' := rooms;
       emitted :=
         [RoomEmit r (MsgRoomPlayers r (Some (Room.players room)));
          SocketEmit (Socket.id socket) (MsgRoomLeft r)] |}.
Proof.
  intros Hdata Hgroup Hr Hn Hlen Huuid Hroom Hfresh Hid o. subst o.
  rewrite (onRoomJoin_admitted _ _ uuid now socket _ _ Hr Hn Hlen Hroom Hfresh).
  unfold joinedOutcome. simpl.
  set (socket1 := Socket.withData _ _).
  set (rooms1 := <[r := _]> rooms).
  assert (binding socket1 = Some (r, uuid)) as Hb by (by apply binding_Some).
  assert ((removePlayer r uuid rooms1).2 = rooms) as Hback.
  { unfold rooms1.
    rewrite (removePlayer_found _ _ _ _ (lookup_insert_eq _ _ _)). simpl.
    assert (filter (fun p => Player.id p ≠ uuid) (Room.players room)
            = Room.players room) as Hkeep.
    { apply filter_id_iff. intros p Hp Heq. apply Hid.
      apply list_elem_of_fmap. eauto. }
    rewrite filter_app, Hkeep, filter_cons, decide_False by (simpl; tauto).
    rewrite filter_nil, app_nil_r, insert_insert_eq.
    replace (Room.withPlayers (Room.players room) _) with room
      by (by destruct room).
    by apply insert_id. }
  rewrite (onRoomLeave_bound _ _ _ _ Hb), Hback. f_equal.
  - destruct socket as [sid d g]. simpl in *. subst d.
    unfold Socket.withData, Socket.leave, Socket.join. simpl. f_equal.
    apply set_eq. intros x.
    rewrite elem_of_difference, elem_of_union, elem_of_singleton.
    split; [tauto|]. intros Hx. split; [tauto|]. by intros ->.
  - unfold snapshotAfter, members. by rewrite Hroom.
Qed.

(** X15. A leave always ends with the connection unbound, so a second
    leave, or the disconnect that follows, finds no binding: it emits
    nothing and changes neither the connection nor the registry.  The
    player is never removed twice. *)
Theorem leave_then_cleanup_is_noop socket rooms :
  let o := onRoomLeave socket rooms in
  binding (socket' o) = None
  ∧ onRoomLeave (socket' o) (rooms' o)
    = {| socket' := socket' o; rooms' := rooms' o; emitted := [] |}
  ∧ onDisconnect (socket' o) (rooms' o)
    = {| socket' := socket' o; rooms' := rooms' o; emitted := [] |}.
Proof.
  intros o.
  assert (binding (socket' o) = None) as Hnone.
  { subst o. destruct (binding socket) as [[r p]|] eqn:Hb.
    - by rewrite (onRoomLeave_bound _ _ _ _ Hb).
    - by rewrite (onRoomLeave_idle _ _ Hb). }
  split; [done|]. split.
  - by apply onRoomLeave_idle.
  - by apply onDisconnect_idle.
Qed.

(** X16. The three handlers never create, delete or rename a room: the
    registry they leave has the same room ids, and each room keeps its id,
    its name and its creation time. *)
Theorem handlers_keep_rooms payload uuid now socket rooms (o : Outcome) :
  o ∈ [onRoomJoin payload uuid now socket rooms;
       onRoomLeave socket rooms; onDisconnect socket rooms] →
  dom (rooms' o) = dom rooms
  ∧ ∀ k room', rooms' o !! k = Some room' →
      ∃ room, rooms !! k = Some room
              ∧ Room.id room' = Room.id room
              ∧ Room.name room' = Room.name room
              ∧ Room.createdAt room' = Room.createdAt room.
Proof.
  assert (∀ r room ps,
            rooms !! r = Some room →
            dom (<[r := Room.withPlayers ps room]> rooms) = dom rooms
            ∧ ∀ k room',
                <[r := Room.withPlayers ps room]> rooms !! k = Some room' →
                ∃ room0, rooms !! k = Some room0
                         ∧ Room.id room' = Room.id room0
                         ∧ Room.name room' = Room.name room0
                         ∧ Room.createdAt room' = Room.createdAt room0)
    as Hupd.
  { intros r room ps Hroom. split; [by apply dom_insert_lookup_L|].
    intros k room'. rewrite lookup_insert. case_decide.
    - intros [= <-]. subst k. by exists room.
    - intros Hk. by exists room'. }
  assert (∀ r p,
            dom (removePlayer r p rooms).2 = dom rooms
            ∧ ∀ k room', (removePlayer r p rooms).2 !! k = Some room' →
                ∃ room0, rooms !! k = Some room0
                         ∧ Room.id room' = Room.id room0
                         ∧ Room.name room' = Room.name room0
                         ∧ Room.createdAt room' = Room.createdAt room0)
    as Hrem.
  { intros r p. unfold removePlayer, getRoom.
    destruct (rooms !! r) as [room|] eqn:Hroom; simpl; [by apply Hupd|].
    split; [done|]. intros k room' Hk. by exists room'. }
  intros Ho.
  apply elem_of_cons in Ho as [->|Ho]; [|apply elem_of_cons in Ho as [->|Ho]];
    [| |apply list_elem_of_singleton in Ho as ->].
  - destruct (onRoomJoin_cases payload uuid now socket rooms)
      as [(error & details & ->)
         |(r & n & room & _ & _ & _ & Hroom & _ & ->)]; simpl.
    + split; [done|]. intros k room' Hk. by exists room'.
    + by apply Hupd.
  - destruct (binding socket) as [[r p]|] eqn:Hb.
    + rewrite (onRoomLeave_bound _ _ _ _ Hb). apply Hrem.
    + rewrite (onRoomLeave_idle _ _ Hb). simpl.
      split; [done|]. intros k room' Hk. by exists room'.
  - destruct (binding socket) as [[r p]|] eqn:Hb.
    + rewrite (onDisconnect_bound _ _ _ _ Hb). apply Hrem.
    + rewrite (onDisconnect_idle _ _ Hb). simpl.
      split; [done|]. intros k room' Hk. by exists room'.
Qed.

(** X17. When the room of a binding has been deleted, the cleanup degrades
    to nothing: the disconnect handler emits no event and the leave handler
    only the private [room:left]; neither changes the registry. *)
Theorem cleanup_after_deleteRoom socket rooms r p :
  binding socket = Some (r, p) →
  let rooms1 := (deleteRoom r rooms).2 in
  onDisconnect socket rooms1
  = {| socket' := socket; rooms' := rooms1; emitted := [] |}
  ∧ rooms' (onRoomLeave socket rooms1) = rooms1
  ∧ emitted (onRoomLeave socket rooms1)
    = [SocketEmit (Socket.id socket) (MsgRoomLeft r)].
Proof.
  intros Hb rooms1.
  assert (rooms1 !! r = None) as Hgone by apply lookup_delete_eq.
  rewrite (onDisconnect_bound _ _ _ _ Hb), (onRoomLeave_bound _ _ _ _ Hb).
  rewrite (removePlayer_not_found _ _ _ Hgone). simpl.
  unfold snapshotAfter, members. by rewrite Hgone.
Qed.

End GatewayMore.

(** Runs on ASCII text. *)

Section GatewayMoreRuns.

#[local] Existing Instance asciiStrings.

Lemma joined_connection_is_bound_witness :
  binding (socket' secondJoin) = Some ("room-b", "player-2")
  ∧ "room-b" ∈ Socket.groups (socket' secondJoin)
  ∧ Socket.id (socket' secondJoin) = Socket.id aliceSocket
  ∧ ∃ room', rooms' secondJoin !! "room-b" = Some room'
             ∧ last (Room.players room')
               = Some (Player.mk "player-2" "Alice" "t3").
Proof.
  apply (joined_connection_is_bound joinTableB "player-2" "t3" aliceSocket
           roomsAB "room-b" (Player.mk "player-2" "Alice" "t3")).
  - discriminate.
  - left.
Defined.

Lemma join_then_leave_witness :
  onRoomLeave
    (socket' (onRoomJoin
                (Some {| pRoomId := JsStr "room-a"; pPlayerName := JsStr "Bob" |})
                "player-2" "t2" idleSocket roomsA))
    (rooms' (onRoomJoin
               (Some {| pRoomId := JsStr "room-a"; pPlayerName := JsStr "Bob" |})
               "player-2" "t2" idleSocket roomsA))
  = {| socket' := idleSocket; rooms' := roomsA;
       emitted :=
         [RoomEmit "room-a" (MsgRoomPlayers "room-a" (Some (Room.players tableA)));
          SocketEmit (Socket.id idleSocket) (MsgRoomLeft "room-a")] |}.
Proof.
  apply (join_then_leave "room-a" "Bob" "player-2" "t2" idleSocket roomsA tableA).
  - reflexivity.
  - apply not_elem_of_empty.
  - discriminate.
  - discriminate.
  - simpl. lia.
  - discriminate.
  - reflexivity.
  - intros Hin. apply list_elem_of_singleton in Hin. discriminate.
  - intros Hin. apply list_elem_of_singleton in Hin. discriminate.
Defined.

Lemma handlers_keep_rooms_witness :
  dom (rooms' secondJoin) = dom roomsAB
  ∧ ∀ k room', rooms' secondJoin !! k = Some room' →
      ∃ room, roomsAB !! k = Some room
              ∧ Room.id room' = Room.id room
              ∧ Room.name room' = Room.name room
              ∧ Room.createdAt room' = Room.createdAt room.
Proof.
  apply (handlers_keep_rooms joinTableB "player-2" "t3" aliceSocket roomsAB).
  left.
Defined.

Lemma cleanup_after_deleteRoom_witness :
  onDisconnect aliceSocket (deleteRoom "room-a" roomsAB).2
  = {| socket' := aliceSocket; rooms' := (deleteRoom "room-a" roomsAB).2;
       emitted := [] |}
  ∧ rooms' (onRoomLeave aliceSocket (deleteRoom "room-a" roomsAB).2)
    = (deleteRoom "room-a" roomsAB).2
  ∧ emitted (onRoomLeave aliceSocket (deleteRoom "room-a" roomsAB).2)
    = [SocketEmit (Socket.id aliceSocket) (MsgRoomLeft "room-a")].
Proof.
  apply (cleanup_after_deleteRoom aliceSocket roomsAB "room-a" "player-1").
  reflexivity.
Defined.

End GatewayMoreRuns.

(** ** Runs of the server: what the registry can become *)

Section ServerRegistry.

Context `{builtins : !JsStrings}.

Implicit Types (rooms : Rooms) (room : Room.t) (socket : Socket.t) (s : Server).

Lemma runServer_cons e es s :
  (runServer (e :: es) s).1 = (runServer es (serve e s).1).1.
Proof.
  simpl. destruct (serve e s) as [s1 out1]. simpl.
  by destruct (runServer es s1).
Qed.

(** What a handler does to the registry is nothing, or one store operation
    on a validated name. *)
Lemma handler_validated_op payload uuid now socket rooms (o : Outcome) :
  o ∈ [onRoomJoin payload uuid now socket rooms;
       onRoomLeave socket rooms; onDisconnect socket rooms] →
  rooms' o = rooms ∨ ∃ op, validatedOp op ∧ rooms' o = applyOp op rooms.
Proof.
  intros Ho.
  apply elem_of_cons in Ho as [->|Ho]; [|apply elem_of_cons in Ho as [->|Ho]];
    [| |apply list_elem_of_singleton in Ho as ->].
  - destruct (onRoomJoin_cases payload uuid now socket rooms)
      as [(error & details & ->)
         |(r & n & room & _ & _ & Hn & Hroom & Hfresh & ->)].
    + by left.
    + right. exists (OpAddPlayer r n uuid now). split; [done|]. simpl.
      by rewrite (addPlayer_fresh _ _ uuid now _ _ Hroom Hfresh).
  - destruct (binding socket) as [[r p]|] eqn:Hb.
    + rewrite (onRoomLeave_bound _ _ _ _ Hb).
      right. by exists (OpRemovePlayer r p).
    + rewrite (onRoomLeave_idle _ _ Hb). by left.
  - destruct (binding socket) as [[r p]|] eqn:Hb.
    + rewrite (onDisconnect_bound _ _ _ _ Hb).
      right. by exists (OpRemovePlayer r p).
    + rewrite (onDisconnect_idle _ _ Hb). by left.
Qed.

Lemma postRooms_registry name uuid now rooms :
  (postRooms name uuid now rooms).2
  = if validName name then (createRoom (str name) uuid now rooms).2 else rooms.
Proof.
  unfold postRooms. rewrite guard_validName.
  by destruct (validName name).
Qed.

Lemma postRoomsJoin_registry id playerName uuid now rooms :
  (postRoomsJoin id playerName uuid now rooms).2
  = if validName playerName
    then (addPlayer id (str playerName) uuid now rooms).2 else rooms.
Proof.
  unfold postRoomsJoin. rewrite guard_validName.
  destruct (validName playerName); simpl; [|done].
  destruct (addPlayer id (str playerName) uuid now rooms) as [[[]|] rooms1];
    done.
Qed.

Lemma deleteRoomById_registry id rooms :
  (deleteRoomById id rooms).2 = delete id rooms.
Proof.
  unfold deleteRoomById, deleteRoom.
  by destruct (bool_decide (is_Some (rooms !! id))).
Qed.

Lemma validName_length (v : JsValue) :
  validName v = true → (2 ≤ jsLength (trim (str v)))%nat.
Proof. intros (n & -> & _ & Hn)%validName_str. done. Qed.

Lemma serve_validated_op e s :
  registry (serve e s).1 = registry s
  ∨ ∃ op, validatedOp op ∧ registry (serve e s).1 = applyOp op (registry s).
Proof.
  destruct e as [[sid|sid payload uuid now|sid|sid]
                |[name uuid now|id playerName uuid now|id]]; simpl.
  - by left.
  - destruct (sockets s !! sid) as [socket|]; [|by left]. simpl.
    apply (handler_validated_op payload uuid now socket). left.
  - destruct (sockets s !! sid) as [socket|]; [|by left]. simpl.
    apply (handler_validated_op None "" "" socket). right. left.
  - destruct (sockets s !! sid) as [socket|]; [|by left]. simpl.
    apply (handler_validated_op None "" "" socket). right. right. left.
  - rewrite postRooms_registry.
    destruct (validName name) eqn:Hvalid; [|by left].
    right. exists (OpCreateRoom (str name) uuid now).
    split; [by apply validName_length|done].
  - rewrite postRoomsJoin_registry.
    destruct (validName playerName) eqn:Hvalid; [|by left].
    right. exists (OpAddPlayer id (str playerName) uuid now).
    split; [by apply validName_length|done].
  - rewrite deleteRoomById_registry. right. by exists (OpDeleteRoom id).
Qed.

Lemma registryNamed_applyOp op rooms :
  trimIdempotent →
  validatedOp op → registryNamed rooms → registryNamed (applyOp op rooms).
Proof.
  intros Hidem Hop Hrooms k room'.
  destruct op as [name uuid now|roomId playerName uuid now|roomId playerId|id];
    simpl in *.
  - rewrite lookup_insert. case_decide; [|by apply Hrooms].
    intros [= <-]. simpl. split.
    + split; [apply Hidem|done].
    + by intros p ?%elem_of_nil.
  - destruct (addPlayer_cases roomId playerName uuid now rooms)
      as [[_ ->]|[(room & _ & _ & ->)|(room & Hroom & _ & ->)]];
      simpl; [by apply Hrooms|by apply Hrooms|].
    rewrite lookup_insert. case_decide; [|by apply Hrooms].
    intros [= <-]. simpl. destruct (Hrooms _ _ Hroom) as [Hname Hplayers].
    split; [done|]. intros p [Hp|Hp]%elem_of_app; [by apply Hplayers|].
    apply list_elem_of_singleton in Hp as ->. simpl.
    split; [apply Hidem|done].
  - unfold removePlayer, getRoom.
    destruct (rooms !! roomId) as [room|] eqn:Hroom; simpl; [|by apply Hrooms].
    rewrite lookup_insert. case_decide; [|by apply Hrooms].
    intros [= <-]. simpl. destruct (Hrooms _ _ Hroom) as [Hname Hplayers].
    split; [done|]. intros p [_ Hp]%list_elem_of_filter. by apply Hplayers.
  - intros H. apply lookup_delete_Some in H as [_ H]. by apply (Hrooms k).
Qed.

(** X18. In every state the server reaches from its start, whatever the
    connections and the requests do and in whatever order, no room has two
    members whose names are equal up to letter case. *)
Theorem server_keeps_names_unique (es : list ServerEvent) :
  registryUnique (registry (runServer es initialServer).1).
Proof.
  assert (∀ s, registryUnique (registry s) →
               registryUnique (registry (runServer es s).1)) as Hrun.
  { induction es as [|e es IH]; intros s Hs; [done|].
    rewrite runServer_cons. apply IH.
    destruct (serve_validated_op e s) as [->|(op & _ & ->)]; [done|].
    by apply registryUnique_applyOp. }
  apply Hrun, registryUnique_empty.
Qed.

(** X19. In every state the server reaches from its start, the name of
    every room and of every member is stored trimmed (it is what [trim]
    returns for it) and its [length] is at least two: the checks of the
    request handlers and of the join handler cover every way into the
    store.  The fact assumed about the built-in is that [trim] is
    idempotent. *)
Theorem server_keeps_names_valid (es : list ServerEvent) :
  trimIdempotent →
  registryNamed (registry (runServer es initialServer).1).
Proof.
  intros Hidem.
  assert (∀ s, registryNamed (registry s) →
               registryNamed (registry (runServer es s).1)) as Hrun.
  { induction es as [|e es IH]; intros s Hs; [done|].
    rewrite runServer_cons. apply IH.
    destruct (serve_validated_op e s) as [->|(op & Hop & ->)]; [done|].
    by apply registryNamed_applyOp. }
  apply Hrun. intros k room H. simpl in H. by rewrite lookup_empty in H.
Qed.

End ServerRegistry.

(** Runs on ASCII text. *)

Section ServerRegistryRuns.

#[local] Existing Instance asciiStrings.

Lemma server_keeps_names_valid_witness :
  registryNamed (registry (runServer lobbyRun initialServer).1).
Proof.
  apply (server_keeps_names_valid lobbyRun).
  apply asciiStrings_trimIdempotent.
Defined.

End ServerRegistryRuns.

(** ** Runs of the server: bindings and members *)

Section ServerBindings.

Context `{builtins : !JsStrings}.

Implicit Types (rooms reg : Rooms) (room : Room.t) (socket : Socket.t)
  (s : Server) (old new socks : gmap string Socket.t).

Lemma NoDup_fmap_filter {A B} (f : A → B) (P : A → Prop)
    `{!∀ x, Decision (P x)} (l : list A) :
  NoDup (f <$> l) → NoDup (f <$> filter P l).
Proof.
  induction l as [|x l IH]; [done|].
  rewrite fmap_cons, NoDup_cons. intros [Hx Hl].
  rewrite filter_cons. destruct (decide (P x)); [|by apply IH].
  rewrite fmap_cons, NoDup_cons. split; [|by apply IH].
  intros Hin. apply Hx.
  apply list_elem_of_fmap in Hin as (y & Hy & Hin).
  apply list_elem_of_filter in Hin as [_ Hin].
  apply list_elem_of_fmap. eauto.
Qed.

Lemma removePlayer_lookup_same r p rooms :
  (removePlayer r p rooms).2 !! r
  = (fun room =>
       Room.withPlayers
         (filter (fun q => Player.id q ≠ p) (Room.players room)) room)
      <$> rooms !! r.
Proof.
  unfold removePlayer, getRoom.
  destruct (rooms !! r) as [room|] eqn:Hroom; simpl.
  - by rewrite lookup_insert_eq.
  - by rewrite Hroom.
Qed.

Lemma removePlayer_lookup_other r p rooms k :
  k ≠ r → (removePlayer r p rooms).2 !! k = rooms !! k.
Proof.
  intros Hne. unfold removePlayer, getRoom.
  destruct (rooms !! r); simpl; [|done]. by rewrite lookup_insert_ne.
Qed.

Lemma evolves_insert sid socket' b old :
  binding socket' = None ∨ binding socket' = b →
  evolves sid b old (<[sid := socket']> old).
Proof.
  intros Hb sid' socket''. rewrite lookup_insert. case_decide.
  - intros [= <-]. right. by subst.
  - by left.
Qed.

Lemma evolves_delete sid b old : evolves sid b old (delete sid old).
Proof.
  intros sid' socket' [_ H]%lookup_delete_Some. by left.
Qed.

Lemma evolves_same sid b old : evolves sid b old old.
Proof. intros sid' socket' H. by left. Qed.

(** The sockets change, the registry does not. *)
Lemma serverInv_unbind sid reg old new :
  serverInv {| registry := reg; sockets := old |} →
  evolves sid None old new →
  serverInv {| registry := reg; sockets := new |}.
Proof.
  intros (Hlive & Hdist & Hids) Hev. split; [|split]; [| |done].
  - intros sid' socket' r p Hs Hb. simpl in *.
    destruct (Hev _ _ Hs) as [Hold|[_ [Hnone|Hnone]]]; [|congruence..].
    by apply (Hlive sid' socket').
  - intros sid1 sid2 socket1 socket2 b Hs1 Hs2 Hb1 Hb2. simpl in *.
    destruct (Hev _ _ Hs1) as [Hold1|[_ [Hnone|Hnone]]]; [|congruence..].
    destruct (Hev _ _ Hs2) as [Hold2|[_ [Hnone|Hnone]]]; [|congruence..].
    by apply (Hdist sid1 sid2 socket1 socket2 b).
Qed.

(** The connection [sid] gives up its member. *)
Lemma serverInv_remove sid socket r p reg old new :
  serverInv {| registry := reg; sockets := old |} →
  old !! sid = Some socket → binding socket = Some (r, p) →
  evolves sid None old new →
  (∀ socket', new !! sid = Some socket' → binding socket' = None) →
  serverInv {| registry := (removePlayer r p reg).2; sockets := new |}.
Proof.
  intros (Hlive & Hdist & Hids) Hsid Hbound Hev Hunbound.
  assert (∀ sid' socket' b, new !! sid' = Some socket' →
            binding socket' = Some b →
            old !! sid' = Some socket' ∧ sid' ≠ sid) as Hwas.
  { intros sid' socket' b Hs Hb.
    destruct (Hev _ _ Hs) as [Hold|[_ [Hnone|Hnone]]]; [|congruence..].
    split; [done|]. intros ->. specialize (Hunbound _ Hs). congruence. }
  split; [|split].
  - intros sid' socket' r0 p0 Hs Hb. simpl in *.
    destruct (Hwas _ _ _ Hs Hb) as [Hold Hne].
    destruct (Hlive _ _ _ _ Hold Hb) as (room0 & Hroom0 & Hp0). simpl in *.
    destruct (decide (r0 = r)) as [->|Hr].
    + rewrite removePlayer_lookup_same, Hroom0. simpl.
      eexists. split; [done|]. unfold playerIds. simpl.
      apply list_elem_of_fmap in Hp0 as (q & -> & Hq).
      apply list_elem_of_fmap. exists q. split; [done|].
      apply list_elem_of_filter. split; [|done].
      intros Heq. apply Hne.
      apply (Hdist sid' sid socket' socket (r, p)); simpl; try done.
      by rewrite Hb, Heq.
    + rewrite removePlayer_lookup_other by done. eauto.
  - intros sid1 sid2 socket1 socket2 b Hs1 Hs2 Hb1 Hb2. simpl in *.
    destruct (Hwas _ _ _ Hs1 Hb1) as [Hold1 _].
    destruct (Hwas _ _ _ Hs2 Hb2) as [Hold2 _].
    by apply (Hdist sid1 sid2 socket1 socket2 b).
  - intros k room' Hk. simpl in *.
    destruct (decide (k = r)) as [->|Hr].
    + rewrite removePlayer_lookup_same in Hk.
      destruct (reg !! r) as [room|] eqn:Hroom; [|done].
      injection Hk as <-. unfold playerIds. simpl.
      by apply NoDup_fmap_filter, (Hids r).
    + rewrite removePlayer_lookup_other in Hk by done. by apply (Hids k).
Qed.

(** A player with a new id is added to room [r], for connection [sid] or
    for no connection. *)
Lemma serverInv_add sid r room n uuid now reg old new :
  serverInv {| registry := reg; sockets := old |} →
  reg !! r = Some room → freshPlayerId uuid reg →
  evolves sid (Some (r, uuid)) old new →
  serverInv
    {| registry :=
         <[r := Room.withPlayers
                  (Room.players room ++ [Player.mk uuid n now]) room]> reg;
       sockets := new |}.
Proof.
  intros (Hlive & Hdist & Hids) Hroom Hfresh Hev.
  assert (∀ sid' socket', old !! sid' = Some socket' →
            binding socket' ≠ Some (r, uuid)) as Hnew.
  { intros sid' socket' Hold Hb.
    destruct (Hlive _ _ _ _ Hold Hb) as (room' & Hroom' & Hin). simpl in *.
    by apply (map_Forall_lookup_1 _ _ _ _ Hfresh Hroom'). }
  split; [|split].
  - intros sid' socket' r0 p0 Hs Hb. simpl in *.
    assert (∀ room0, reg !! r0 = Some room0 → p0 ∈ playerIds room0 →
              ∃ room1,
                <[r := Room.withPlayers
                         (Room.players room ++ [Player.mk uuid n now]) room]>
                  reg !! r0 = Some room1
                ∧ p0 ∈ playerIds room1) as Hgrow.
    { intros room0 Hroom0 Hp0. destruct (decide (r0 = r)) as [->|Hr].
      - rewrite lookup_insert_eq. eexists. split; [done|].
        unfold playerIds in *. simpl. rewrite fmap_app.
        apply elem_of_app. left. congruence.
      - rewrite lookup_insert_ne by done. eauto. }
    destruct (Hev _ _ Hs) as [Hold|[_ [Hnone|Hjoined]]].
    + destruct (Hlive _ _ _ _ Hold Hb) as (room0 & Hroom0 & Hp0). eauto.
    + congruence.
    + rewrite Hb in Hjoined. injection Hjoined as -> ->.
      rewrite lookup_insert_eq. eexists. split; [done|].
      unfold playerIds. simpl. rewrite fmap_app.
      apply elem_of_app. right. by apply list_elem_of_singleton.
  - intros sid1 sid2 socket1 socket2 b Hs1 Hs2 Hb1 Hb2. simpl in *.
    destruct (Hev _ _ Hs1) as [Hold1|[-> [Hnone|Hj1]]]; [| congruence |];
      (destruct (Hev _ _ Hs2) as [Hold2|[-> [Hnone|Hj2]]]; [| congruence |]).
    + by apply (Hdist sid1 sid2 socket1 socket2 b).
    + exfalso. apply (Hnew _ _ Hold1). congruence.
    + exfalso. apply (Hnew _ _ Hold2). congruence.
    + done.
  - intros k room' Hk. simpl in *.
    rewrite lookup_insert in Hk. case_decide; [|by apply (Hids k)].
    injection Hk as <-. unfold playerIds. simpl. rewrite fmap_app.
    apply NoDup_app. split; [by apply (Hids r)|]. split.
    + intros x Hx ->%list_elem_of_singleton. simpl in *.
      by apply (map_Forall_lookup_1 _ _ _ _ Hfresh Hroom).
    + apply NoDup_singleton.
Qed.

(** A room is created under a new id. *)
Lemma serverInv_create name uuid now reg socks :
  serverInv {| registry := reg; sockets := socks |} →
  reg !! uuid = None →
  serverInv {| registry := (createRoom name uuid now reg).2; sockets := socks |}.
Proof.
  intros (Hlive & Hdist & Hids) Hnone. split; [|split]; [|done|].
  - intros sid socket r p Hs Hb. simpl in *.
    destruct (Hlive _ _ _ _ Hs Hb) as (room & Hroom & Hp). simpl in *.
    exists room. split; [|done].
    rewrite lookup_insert_ne; [done|]. intros ->. congruence.
  - intros k room Hk. simpl in *.
    rewrite lookup_insert in Hk. case_decide; [|by apply (Hids k)].
    injection Hk as <-. apply NoDup_nil_2.
Qed.

(** A room that no connection is bound to is deleted. *)
Lemma serverInv_delete id reg socks :
  serverInv {| registry := reg; sockets := socks |} →
  unboundRoom id socks →
  serverInv {| registry := delete id reg; sockets := socks |}.
Proof.
  intros (Hlive & Hdist & Hids) Hfree. split; [|split]; [|done|].
  - intros sid socket r p Hs Hb. simpl in *.
    destruct (Hlive _ _ _ _ Hs Hb) as (room & Hroom & Hp). simpl in *.
    exists room. split; [|done].
    rewrite lookup_delete_ne; [done|]. intros ->.
    apply (map_Forall_lookup_1 _ _ _ _ Hfree Hs). by rewrite Hb.
  - intros k room Hk. simpl in Hk.
    apply lookup_delete_Some in Hk as [_ Hk]. by apply (Hids k).
Qed.

Lemma serverInv_serve e s :
  admissible e s → serverInv s → serverInv (serve e s).1.
Proof.
  destruct s as [reg socks].
  destruct e as [[sid|sid payload uuid now|sid|sid]
                |[name uuid now|id playerName uuid now|id]];
    simpl; intros Hadm Hinv.
  - apply (serverInv_unbind sid _ socks); [done|].
    apply evolves_insert. by left.
  - destruct (socks !! sid) as [socket|] eqn:Hsid; [|done]. simpl.
    destruct (onRoomJoin_cases payload uuid now socket reg)
      as [(error & details & ->)
         |(r & n & room & _ & _ & _ & Hroom & _ & ->)]; simpl.
    + by rewrite insert_id.
    + apply (serverInv_add sid _ _ _ _ _ _ socks); try done.
      apply evolves_insert. unfold binding. simpl.
      destruct ((r =? "") || (uuid =? "")); [by left|by right].
  - destruct (socks !! sid) as [socket|] eqn:Hsid; [|done]. simpl.
    destruct (binding socket) as [[r p]|] eqn:Hb.
    + rewrite (onRoomLeave_bound _ _ _ _ Hb). simpl.
      apply (serverInv_remove sid socket _ _ _ socks); try done.
      * apply evolves_insert. by left.
      * intros socket'. rewrite lookup_insert_eq. by intros [= <-].
    + rewrite (onRoomLeave_idle _ _ Hb). simpl. by rewrite insert_id.
  - destruct (socks !! sid) as [socket|] eqn:Hsid; [|done]. simpl.
    destruct (binding socket) as [[r p]|] eqn:Hb.
    + rewrite (onDisconnect_bound _ _ _ _ Hb). simpl.
      apply (serverInv_remove sid socket _ _ _ socks); try done.
      * apply evolves_delete.
      * intros socket'. by rewrite lookup_delete_eq.
    + rewrite (onDisconnect_idle _ _ Hb). simpl.
      apply (serverInv_unbind sid _ socks); [done|]. apply evolves_delete.
  - rewrite postRooms_registry. destruct (validName name); [|done].
    by apply serverInv_create.
  - rewrite postRoomsJoin_registry. destruct (validName playerName); [|done].
    destruct (addPlayer_cases id (str playerName) uuid now reg)
      as [[_ ->]|[(room & _ & _ & ->)|(room & Hroom & _ & ->)]];
      simpl; [done|done|].
    apply (serverInv_add "" _ _ _ _ _ _ socks); try done.
    apply evolves_same.
  - rewrite deleteRoomById_registry. by apply serverInv_delete.
Qed.

(** X20. As long as the ids drawn for players and rooms are new and a room
    is deleted only when no connection is bound to it, in every state the
    server reaches from its start each binding names a room that exists
    and a player who is a member of it, no two connections are bound to
    the same player, and the members of a room have different ids. *)
Theorem server_keeps_bindings_live (es : list ServerEvent) :
  admissibleRun es initialServer →
  bindingsLive (runServer es initialServer).1
  ∧ bindingsDistinct (runServer es initialServer).1
  ∧ idsUnique (registry (runServer es initialServer).1).
Proof.
  assert (∀ s, admissibleRun es s → serverInv s →
               serverInv (runServer es s).1) as Hrun.
  { induction es as [|e es IH]; intros s Hadm Hs; [done|].
    destruct Hadm as [He Hes].
    rewrite runServer_cons. apply IH; [done|]. by apply serverInv_serve. }
  intros Hadm. apply (Hrun initialServer Hadm).
  split; [|split].
  - intros sid socket r p Hs. simpl in Hs. by rewrite lookup_empty in Hs.
  - intros sid1 sid2 socket1 socket2 b Hs. simpl in Hs.
    by rewrite lookup_empty in Hs.
  - intros k room Hk. simpl in Hk. by rewrite lookup_empty in Hk.
Qed.

End ServerBindings.

(** Runs on ASCII text. *)

Section ServerBindingsRuns.

#[local] Existing Instance asciiStrings.

Lemma server_keeps_bindings_live_witness :
  bindingsLive (runServer lobbyRun initialServer).1
  ∧ bindingsDistinct (runServer lobbyRun initialServer).1
  ∧ idsUnique (registry (runServer lobbyRun initialServer).1).
Proof.
  apply (server_keeps_bindings_live lobbyRun).
  unfold lobbyRun. simpl admissibleRun. unfold admissible, freshPlayerId.
  repeat split; try (apply (bool_decide_unpack _); by vm_compute).
Defined.

End ServerBindingsRuns.

(** ** The client and the gateway together *)

Section ClientAndGateway.

Context `{builtins : !JsStrings}.

Implicit Types (rooms : Rooms) (room : Room.t) (socket : Socket.t)
  (st : App.t).

#[local] Arguments deliveredTo : simpl never.

Lemma deliveredTo_own socket sid m es :
  sid = Socket.id socket →
  deliveredTo socket (SocketEmit sid m :: es) = m :: deliveredTo socket es.
Proof.
  intros ->. unfold deliveredTo. simpl.
  by rewrite bool_decide_eq_true_2.
Qed.

Lemma deliveredTo_other socket sid m es :
  sid ≠ Socket.id socket →
  deliveredTo socket (SocketEmit sid m :: es) = deliveredTo socket es.
Proof.
  intros Hne. unfold deliveredTo. simpl.
  by rewrite bool_decide_eq_false_2.
Qed.

Lemma deliveredTo_group socket r m es :
  r ∈ Socket.groups socket →
  deliveredTo socket (RoomEmit r m :: es) = m :: deliveredTo socket es.
Proof.
  intros Hin. unfold deliveredTo. simpl.
  by rewrite bool_decide_eq_true_2.
Qed.



(** X21. Join, end to end.  When the two inputs are not blank the client
    calls [socket.connect()] if its socket is not connected, then emits
    [room:join] with the trimmed inputs.  Once the connection is made (the
    [connect] listener has run) and the client has received what the
    gateway's handler sends to its connection, it shows itself connected
    and: the server's [playerName required] error when the server finds the
    name shorter than two; else [Room not found] for an unknown room; else
    [Name taken] for a name in use up to letter case, in all three cases
    with the room and the players it showed before; and otherwise the room
    as joined, with the room's members followed by the new player, and no
    error. *)
Theorem client_join_end_to_end (socketConnected : bool) st uuid now socket
    rooms :
  trim (App.roomId st) ≠ "" → trim (App.playerName st) ≠ "" →
  let r := trim (App.roomId st) in
  let n := trim (App.playerName st) in
  let payload := {| pRoomId := JsStr r; pPlayerName := JsStr n |} in
  let o := onRoomJoin (Some payload) uuid now socket rooms in
  let calls := (App.joinRoom socketConnected st).2 in
  let shows (joined : option string) (players : list Player.t)
        (error : option string) :=
    App.receive (deliveredTo (socket' o) (emitted o))
      (App.connectedBy calls (App.joinRoom socketConnected st).1)
    = App.mk (App.roomId st) (App.playerName st)
        (if socketConnected then App.connected st else true)
        joined players error in
  calls = App.connectIfNeeded socketConnected ++ [App.CallEmitJoin payload]
  ∧ if (jsLength (trim n) <? 2)%nat then
      shows (App.joinedRoomId st) (App.players st)
        (Some "playerName required (min 2 chars)")
    else
      match rooms !! r with
      | None =>
          shows (App.joinedRoomId st) (App.players st) (Some "Room not found")
      | Some room =>
          if bool_decide (toLowerCase (trim n) ∈ lowerNames (Room.players room))
          then shows (App.joinedRoomId st) (App.players st) (Some "Name taken")
          else
            shows (Some r)
              (Room.players room ++ [Player.mk uuid (trim n) now]) None
      end.
Proof.
  intros Hr Hn r n payload o calls shows. subst shows calls o payload.
  unfold App.joinRoom. fold r n.
  apply String.eqb_neq in Hr as Hr', Hn as Hn'. fold r in Hr'. fold n in Hn'.
  rewrite Hr', Hn'. cbn [orb fst snd]. split; [done|].
  assert (App.connectedBy
            (App.connectIfNeeded socketConnected ++ [App.CallEmitJoin
               {| pRoomId := JsStr r; pPlayerName := JsStr n |}])
            (App.mk (App.roomId st) (App.playerName st) (App.connected st)
               (App.joinedRoomId st) (App.players st) None)
          = App.mk (App.roomId st) (App.playerName st)
              (if socketConnected then App.connected st else true)
              (App.joinedRoomId st) (App.players st) None) as ->.
  { by destruct socketConnected. }
  unfold onRoomJoin. simpl. rewrite Hr', Hn'. simpl.
  destruct (jsLength (trim n) <? 2)%nat eqn:Hlen.
  { simpl. by rewrite deliveredTo_own. }
  destruct (rooms !! r) as [room|] eqn:Hroom.
  - case_bool_decide as Hin.
    + rewrite (addPlayer_taken _ _ uuid now _ _ Hroom Hin).
      simpl. by rewrite deliveredTo_own.
    + rewrite (addPlayer_fresh _ _ uuid now _ _ Hroom Hin).
      simpl. unfold listPlayers, getRoom. rewrite lookup_insert_eq. simpl.
      rewrite deliveredTo_own by done.
      rewrite deliveredTo_group
        by (simpl; apply elem_of_union_l, elem_of_singleton; done).
      done.
  - rewrite (addPlayer_not_found _ _ uuid now _ Hroom). simpl.
    by rewrite deliveredTo_own.
Qed.


(** X23. What the others see.  Whenever a handler that runs for one
    connection broadcasts to a room, the client of another connection that
    is in the room's group receives that broadcast alone and then shows
    exactly the members the room has in the registry, in their order; the
    rest of what it shows is unchanged. *)
Theorem observer_sees_members payload uuid now socket rooms (o : Outcome)
    (observer : Socket.t) st r m :
  o ∈ [onRoomJoin payload uuid now socket rooms;
       onRoomLeave socket rooms; onDisconnect socket rooms] →
  Socket.id observer ≠ Socket.id socket →
  RoomEmit r m ∈ emitted o →
  r ∈ Socket.groups observer →
  ∃ players,
    members r (rooms' o) = Some players
    ∧ deliveredTo observer (emitted o) = [MsgRoomPlayers r (Some players)]
    ∧ App.receive (deliveredTo observer (emitted o)) st
      = App.mk (App.roomId st) (App.playerName st) (App.connected st)
          (App.joinedRoomId st) players (App.error st).
Proof.
  intros Ho Hid Hin Hgroup.
  assert (∀ r0 rooms1 es,
            RoomEmit r m ∈ snapshotAfter r0 rooms1 →
            ∃ players, members r rooms1 = Some players
              ∧ deliveredTo observer (snapshotAfter r0 rooms1 ++ es)
                = MsgRoomPlayers r (Some players) :: deliveredTo observer es)
    as Hsnap.
  { intros r0 rooms1 es. unfold snapshotAfter.
    destruct (members r0 rooms1) as [ps|] eqn:Hm; [|by intros ?%elem_of_nil].
    intros [= -> ->]%list_elem_of_singleton. exists ps. split; [done|].
    by apply deliveredTo_group. }
  apply elem_of_cons in Ho as [->|Ho]; [|apply elem_of_cons in Ho as [->|Ho]];
    [| |apply list_elem_of_singleton in Ho as ->].
  - destruct (onRoomJoin_cases payload uuid now socket rooms)
      as [(error & details & Heq)|(r0 & n & room & _ & _ & _ & Hroom & _ & Heq)];
      rewrite Heq in Hin |- *; simpl in *.
    + by apply list_elem_of_singleton in Hin.
    + apply elem_of_cons in Hin as [Hin|Hin]; [done|].
      apply list_elem_of_singleton in Hin as [= -> ->].
      eexists. split; [unfold members; by rewrite lookup_insert_eq|].
      rewrite deliveredTo_other, deliveredTo_group by done. done.
  - destruct (binding socket) as [[r0 p0]|] eqn:Hb.
    + rewrite (onRoomLeave_bound _ _ _ _ Hb) in Hin |- *. simpl in *.
      apply elem_of_app in Hin as [Hin|Hin];
        [|by apply list_elem_of_singleton in Hin].
      destruct (Hsnap _ _ [SocketEmit (Socket.id socket) (MsgRoomLeft r0)] Hin)
        as (ps & Hm & ->).
      exists ps. split; [done|]. by rewrite deliveredTo_other.
    + rewrite (onRoomLeave_idle _ _ Hb) in Hin. by apply elem_of_nil in Hin.
  - destruct (binding socket) as [[r0 p0]|] eqn:Hb.
    + rewrite (onDisconnect_bound _ _ _ _ Hb) in Hin |- *. simpl in *.
      destruct (Hsnap _ _ [] Hin) as (ps & Hm & Hd).
      rewrite app_nil_r in Hd. rewrite Hd. by exists ps.
    + rewrite (onDisconnect_idle _ _ Hb) in Hin. by apply elem_of_nil in Hin.
Qed.

End ClientAndGateway.

(** Runs on ASCII text. *)

Section ClientAndGatewayRuns.

#[local] Existing Instance asciiStrings.

Lemma client_join_end_to_end_witness :
  bobJoin.2
  = [App.CallConnect;
     App.CallEmitJoin {| pRoomId := JsStr "room-a"; pPlayerName := JsStr "Bob" |}]
  ∧ App.receive
      (deliveredTo
         (socket' (onRoomJoin
                     (Some {| pRoomId := JsStr "room-a";
                              pPlayerName := JsStr "Bob" |})
                     "player-2" "t2" idleSocket roomsA))
         (emitted (onRoomJoin
                     (Some {| pRoomId := JsStr "room-a";
                              pPlayerName := JsStr "Bob" |})
                     "player-2" "t2" idleSocket roomsA)))
      (App.connectedBy bobJoin.2 bobJoin.1)
    = App.mk " room-a " " Bob " true (Some "room-a")
        [alice; Player.mk "player-2" "Bob" "t2"] None.
Proof.
  assert (AsciiText.trim " room-a " ≠ "") as Hr by discriminate.
  assert (AsciiText.trim " Bob " ≠ "") as Hn by discriminate.
  exact (client_join_end_to_end false bobApp "player-2" "t2" idleSocket roomsA
           Hr Hn).
Defined.

Lemma observer_sees_members_witness :
  ∃ players,
    members "room-a" (rooms' (onDisconnect aliceSocket roomsAB)) = Some players
    ∧ deliveredTo (Socket.mk "socket-2"
                     {| roomId := Some "room-a"; playerId := Some "player-9" |}
                     {["room-a"]})
        (emitted (onDisconnect aliceSocket roomsAB))
      = [MsgRoomPlayers "room-a" (Some players)]
    ∧ App.receive
        (deliveredTo (Socket.mk "socket-2"
                        {| roomId := Some "room-a"; playerId := Some "player-9" |}
                        {["room-a"]})
           (emitted (onDisconnect aliceSocket roomsAB)))
        aliceApp
      = App.mk (App.roomId aliceApp) (App.playerName aliceApp)
          (App.connected aliceApp) (App.joinedRoomId aliceApp) players
          (App.error aliceApp).
Proof.
  apply (observer_sees_members None "" "" aliceSocket roomsAB
           (onDisconnect aliceSocket roomsAB)
           (Socket.mk "socket-2"
              {| roomId := Some "room-a"; playerId := Some "player-9" |}
              {["room-a"]})
           aliceApp "room-a" (MsgRoomPlayers "room-a" (Some []))).
  - right. right. left.
  - discriminate.
  - left.
  - cbn [Socket.groups]. apply elem_of_singleton_2. reflexivity.
Defined.

End ClientAndGatewayRuns.

(** ** Runs of the server: the ids the handlers answer with *)

Section ServerIds.

Context `{builtins : !JsStrings}.

Implicit Types (rooms : Rooms) (room : Room.t) (s : Server).

(** X24. In every state the server reaches from its start each room is
    stored under its own id, so the handlers that answer with the id read
    from the room answer with the id they were asked: the [roomId] of a 200
    of [GET /rooms/:id/players] and of a 201 of [POST /rooms/:id/join] is
    the [:id] of the request. *)
Theorem server_answers_requested_id (es : list ServerEvent) id :
  let rooms := registry (runServer es initialServer).1 in
  registryKeyed rooms
  ∧ (∀ rid players,
       reply (getRoomPlayers id rooms) = ReplyPlayers rid players → rid = id)
  ∧ (∀ playerName uuid now rid player,
       body (postRoomsJoin id playerName uuid now rooms).1
       = BodyJoined rid player → rid = id).
Proof.
  intros rooms.
  assert (registryKeyed rooms) as Hkeyed.
  { subst rooms.
    assert (∀ s, registryKeyed (registry s) →
                 registryKeyed (registry (runServer es s).1)) as Hrun.
    { induction es as [|e es IH]; intros s Hs; [done|].
      rewrite runServer_cons. apply IH.
      destruct (serve_validated_op e s) as [->|(op & _ & ->)]; [done|].
      by apply registryKeyed_applyOp. }
    apply Hrun. intros k room H. simpl in H. by rewrite lookup_empty in H. }
  split; [done|]. split.
  - intros rid players. unfold getRoomPlayers, listPlayers, getRoom.
    destruct (rooms !! id) as [room|] eqn:Hroom; [|done].
    simpl. intros [= <- _]. by apply Hkeyed.
  - intros playerName uuid now rid player. unfold postRoomsJoin.
    destruct (negb (truthy playerName) || negb (isString playerName)
              || (jsLength (trim (str playerName)) <? 2)%nat); [done|].
    destruct (addPlayer_cases id (str playerName) uuid now rooms)
      as [[_ ->]|[(room & _ & _ & ->)|(room & Hroom & _ & ->)]];
      simpl; [done|done|].
    intros [= <- _]. by apply Hkeyed.
Qed.

End ServerIds.
